(** * recovery-persist: log rotation and de-duplication

    A shallow embedding of [recovery-persist.cpp].  The program pulls the
    records of the last pmsg buffer into /data/misc/recovery/, rotates the
    previous logs once, and seeds last_kmsg from the pstore console.

    The C++ code is a sequence of blocking system calls on one thread, with
    one file-level flag ([rotated]).  It is modelled as a state monad over a
    world made of a file system, the flags, and the trace of calls issued so
    far.  Sizes and offsets are [nat]; the [ssize_t] result of [logsave] is a
    [Z] with the conversion from [size_t] written out (LP64 target). *)

From Stdlib Require Import ZArith List Lia Bool.
From Stdlib Require Import Strings.Byte.
From stdpp Require Import base gmap strings list.
From Equations Require Import Equations.

Import ListNotations.

#[global] Instance byte_eq_dec : EqDecision byte := Byte.byte_eq_dec.

(** ** The world *)

(** A regular file.  [f_fault = Some o] says that [read] fails (EIO) at
    offset [o] and beyond; bytes before [o] are read normally. *)
Record file := File {
  f_data : list byte;
  f_readable : bool;
  f_writable : bool;
  f_fault : option nat
}.

(** [fs_frozen] holds the names whose directory entry can be neither
    created nor removed (the parent directory is missing or read-only). *)
Record filesystem := Filesystem {
  fs_files : gmap string file;
  fs_frozen : gset string
}.

(** The calls the program issues, as they appear in the trace. *)
Inductive event :=
| EvAccess (path : string)
| EvStat (path : string)
| EvOpen (path : string)
| EvRead (path : string) (off n : nat)
| EvReadFile (path : string)
| EvWriteFile (path : string) (ok : bool)
| EvFopenW (path : string) (ok : bool)
| EvFopenR (path : string) (ok : bool)
| EvFread (path : string) (n : nat)
| EvUnlink (path : string) (ok : bool)
| EvRotateLogs (performed : bool)
| EvLog (msg : string).

#[global] Instance event_eq_dec : EqDecision event.
Proof. solve_decision. Defined.

(** [rotated] is the file-level flag of line 86.  [rotate_logs_done] is the
    once-per-run latch of the rotation primitive.  The trace has the most
    recent call first. *)
Record state := State {
  st_fs : filesystem;
  rotated : bool;
  rotate_logs_done : bool;
  st_trace : list event
}.

Definition io (A : Type) : Type := state -> A * state.

Definition ret {A} (a : A) : io A := fun st => (a, st).

Definition bind {A B} (m : io A) (k : A -> io B) : io B :=
  fun st => let (a, st1) := m st in k a st1.

Notation "'let*' x ':=' m 'in' k" := (bind m (fun x => k))
  (at level 10, x name, m at level 100, k at level 200).
Notation "m ';;;' k" := (bind m (fun _ => k))
  (at level 100, k at level 200, right associativity).

Definition emit (e : event) : io unit :=
  fun st => (tt, State (st_fs st) (rotated st) (rotate_logs_done st) (e :: st_trace st)).

Definition get_fs : io filesystem := fun st => (st_fs st, st).

Definition put_fs (fs : filesystem) : io unit :=
  fun st => (tt, State fs (rotated st) (rotate_logs_done st) (st_trace st)).

Definition get_rotated : io bool := fun st => (rotated st, st).

Definition set_rotated (b : bool) : io unit :=
  fun st => (tt, State (st_fs st) b (rotate_logs_done st) (st_trace st)).

(** PLOG(ERROR) / LOG(ERROR): a diagnostic line, nothing else. *)
Definition log_error (msg : string) : io unit := emit (EvLog msg).

(** The world after a computation, and its result. *)
Definition exec {A} (m : io A) (st : state) : state := snd (m st).
Definition eval {A} (m : io A) (st : state) : A := fst (m st).

(** ** File-system primitives *)

Definition lookup_file (fs : filesystem) (path : string) : option file :=
  fs_files fs !! path.

Definition set_file (fs : filesystem) (path : string) (f : file) : filesystem :=
  Filesystem (<[path := f]> (fs_files fs)) (fs_frozen fs).

Definition remove_file (fs : filesystem) (path : string) : filesystem :=
  Filesystem (delete path (fs_files fs)) (fs_frozen fs).

(** Number of bytes that can be read from the start before EOF or a fault. *)
Definition readable_len (f : file) : nat :=
  match f_fault f with
  | Some o => Nat.min o (length (f_data f))
  | None => length (f_data f)
  end.

(** [access(path, R_OK) == 0] *)
Definition access_R_OK (path : string) : io bool :=
  let* fs := get_fs in
  emit (EvAccess path) ;;;
  ret (match lookup_file fs path with
       | Some f => f_readable f
       | None => false
       end).

(** [stat(path, &st)]: [None] when it fails, else [st.st_size]. *)
Definition stat_size (path : string) : io (option nat) :=
  let* fs := get_fs in
  emit (EvStat path) ;;;
  ret (match lookup_file fs path with
       | Some f => Some (length (f_data f))
       | None => None
       end).

(** A read-only descriptor.  It pins the file it was opened on and carries
    its own offset; [fd_file = None] is the invalid descriptor (-1). *)
Record fd := Fd {
  fd_path : string;
  fd_file : option file;
  fd_off : nat
}.

(** [open(path, O_RDONLY)] *)
Definition open_rdonly (path : string) : io fd :=
  let* fs := get_fs in
  emit (EvOpen path) ;;;
  ret (match lookup_file fs path with
       | Some f => if f_readable f then Fd path (Some f) 0 else Fd path None 0
       | None => Fd path None 0
       end).

Definition fd_left (d : fd) : nat :=
  match fd_file d with
  | Some f => readable_len f - fd_off d
  | None => 0
  end.

(** [android::base::ReadFully(fd, buf, n)]: all [n] bytes or failure.  A
    request of zero bytes succeeds without touching the descriptor; EOF
    before [n] bytes is a failure. *)
Definition read_fully (d : fd) (n : nat) : option (list byte * fd) :=
  if Nat.eqb n 0 then Some ([], d)
  else match fd_file d with
       | None => None
       | Some f =>
           if Nat.leb (fd_off d + n) (readable_len f)
           then Some (firstn n (skipn (fd_off d) (f_data f)),
                      Fd (fd_path d) (fd_file d) (fd_off d + n))
           else None
       end.

Definition ReadFully (d : fd) (n : nat) : io (option (list byte * fd)) :=
  emit (EvRead (fd_path d) (fd_off d) n) ;;;
  ret (read_fully d n).

(** [android::base::ReadFileToString(path, &content)]: [content] is cleared
    first, then filled with what can be read; a file that cannot be opened
    leaves it empty.  The boolean result is not used by the program. *)
Definition ReadFileToString (path : string) : io (list byte) :=
  let* fs := get_fs in
  emit (EvReadFile path) ;;;
  ret (match lookup_file fs path with
       | Some f => if f_readable f then firstn (readable_len f) (f_data f) else []
       | None => []
       end).

(** Opening for writing with O_CREAT | O_TRUNC: an existing file must be
    writable and is emptied; a missing one is created unless its name is
    frozen. *)
Definition creat_trunc (fs : filesystem) (path : string) : option filesystem :=
  match lookup_file fs path with
  | Some f =>
      if f_writable f
      then Some (set_file fs path (File [] (f_readable f) true (f_fault f)))
      else None
  | None =>
      if bool_decide (path ∈ fs_frozen fs) then None
      else Some (set_file fs path (File [] true true None))
  end.

(** Appending to a file that is open for writing. *)
Definition append_file (fs : filesystem) (path : string) (bytes : list byte) : filesystem :=
  match lookup_file fs path with
  | Some f =>
      set_file fs path (File (f_data f ++ bytes) (f_readable f) (f_writable f) (f_fault f))
  | None => fs
  end.

(** [android::base::WriteStringToFile(content, path)]: [true] when the file
    was opened (created or truncated) and the content written. *)
Definition WriteStringToFile (content : list byte) (path : string) : io bool :=
  let* fs := get_fs in
  match creat_trunc fs path with
  | Some fs1 =>
      put_fs (append_file fs1 path content) ;;;
      emit (EvWriteFile path true) ;;;
      ret true
  | None =>
      emit (EvWriteFile path false) ;;;
      ret false
  end.

(** [fopen(path, "we")]: [true] when the stream was opened. *)
Definition fopen_w (path : string) : io bool :=
  let* fs := get_fs in
  match creat_trunc fs path with
  | Some fs1 => put_fs fs1 ;;; emit (EvFopenW path true) ;;; ret true
  | None => emit (EvFopenW path false) ;;; ret false
  end.

(** [fopen(path, "re")]: the stream, or [None] for a null pointer. *)
Definition fopen_r (path : string) : io (option fd) :=
  let* fs := get_fs in
  match lookup_file fs path with
  | Some f =>
      if f_readable f
      then emit (EvFopenR path true) ;;; ret (Some (Fd path (Some f) 0))
      else emit (EvFopenR path false) ;;; ret None
  | None => emit (EvFopenR path false) ;;; ret None
  end.

(** [fread(buf, 1, n, fp)]: the bytes obtained (fewer than [n] at EOF or at
    a fault) and the stream after the call. *)
Definition fread_bytes (fp : fd) (n : nat) : list byte * fd :=
  match fd_file fp with
  | None => ([], fp)
  | Some f =>
      let k := Nat.min n (readable_len f - fd_off fp) in
      (firstn k (skipn (fd_off fp) (f_data f)),
       Fd (fd_path fp) (fd_file fp) (fd_off fp + k))
  end.

(** [fwrite(buf, 1, bytes, fp)] on a stream opened by [fopen_w]. *)
Definition fwrite (path : string) (bytes : list byte) : io unit :=
  let* fs := get_fs in
  put_fs (append_file fs path bytes).

(** [ferror(fp)] on a read stream: set once a read ran into the fault. *)
Definition ferror_r (fp : fd) : bool :=
  match fd_file fp with
  | Some f =>
      match f_fault f with
      | Some o => Nat.leb o (fd_off fp) && Nat.ltb (fd_off fp) (length (f_data f))
      | None => false
      end
  | None => false
  end.

(** [unlink(path)]: [true] when it returned 0. *)
Definition unlink (path : string) : io bool :=
  let* fs := get_fs in
  match lookup_file fs path with
  | Some _ =>
      if bool_decide (path ∈ fs_frozen fs)
      then emit (EvUnlink path false) ;;; ret false
      else put_fs (remove_file fs path) ;;; emit (EvUnlink path true) ;;; ret true
  | None => emit (EvUnlink path false) ;;; ret false
  end.

(** ** Observations on a world *)

(** [access(path, R_OK)] would succeed. *)
Definition readable (fs : filesystem) (path : string) : bool :=
  match lookup_file fs path with
  | Some f => f_readable f
  | None => false
  end.

(** What [file_size] reports. *)
Definition size_of (fs : filesystem) (path : string) : nat :=
  match lookup_file fs path with
  | Some f => length (f_data f)
  | None => 0
  end.

(** The bytes of a file, for a path that names one. *)
Definition content (fs : filesystem) (path : string) : option (list byte) :=
  f_data <$> lookup_file fs path.

(** What [ReadFileToString] leaves in its output string. *)
Definition stored_content (fs : filesystem) (path : string) : list byte :=
  match lookup_file fs path with
  | Some f => if f_readable f then firstn (readable_len f) (f_data f) else []
  | None => []
  end.

(** A read of the file runs into a fault before its end. *)
Definition read_fails (fs : filesystem) (path : string) : Prop :=
  exists f o, lookup_file fs path = Some f /\ f_fault f = Some o /\ o < length (f_data f).

(** The descriptor [open_rdonly] returns. *)
Definition opened (fs : filesystem) (path : string) : fd :=
  match lookup_file fs path with
  | Some f => if f_readable f then Fd path (Some f) 0 else Fd path None 0
  | None => Fd path None 0
  end.

(** The world with one more event in its trace. *)
Definition logged (e : event) (st : state) : state :=
  State (st_fs st) (rotated st) (rotate_logs_done st) (e :: st_trace st).

(** ** recovery-persist.cpp *)

Definition LAST_LOG_FILE : string := "/data/misc/recovery/last_log".
Definition LAST_PMSG_FILE : string := "/sys/fs/pstore/pmsg-ramoops-0".
Definition LAST_KMSG_FILE : string := "/data/misc/recovery/last_kmsg".
Definition LAST_CONSOLE_FILE : string := "/sys/fs/pstore/console-ramoops-0".
Definition ALT_LAST_CONSOLE_FILE : string := "/sys/fs/pstore/console-ramoops".

Definition inspect {A} (a : A) : {b : A | a = b} := exist _ a eq_refl.

(** [check_and_fclose], line 56.  [err] is [ferror(fp)] after the flush. *)
Definition check_and_fclose (err : bool) (name : string) : io unit :=
  if err then log_error ("Error in " +:+ name) else ret tt.

(** [sizeof(buf)] in [copy_file] *)
Definition COPY_BUF_SIZE : nat := 4096.

(** The [while ((bytes = fread(...)) != 0) fwrite(...)] loop of [copy_file],
    lines 73-75.  It returns the source stream as the loop leaves it. *)
Equations? copy_loop (destination : string) (source_fp : fd) (st : state)
    : fd * state by wf (fd_left source_fp) lt :=
  copy_loop destination source_fp st
    with inspect (fread_bytes source_fp COPY_BUF_SIZE) => {
    | exist _ ([], fp1) _ :=
        (fp1, snd (emit (EvFread (fd_path source_fp) 0) st));
    | exist _ (b :: bytes, fp1) e :=
        copy_loop destination fp1
          (snd ((emit (EvFread (fd_path source_fp) (length (b :: bytes))) ;;;
                 fwrite destination (b :: bytes)) st)) }.
Proof.
  (* a non-empty chunk moves the offset of the source stream *)
  unfold fread_bytes, fd_left in *.
  destruct (fd_file source_fp) as [f|]; [|discriminate].
  pose proof (f_equal fst e) as Hb. pose proof (f_equal snd e) as Hfp.
  cbv beta iota delta [fst snd] in Hb, Hfp. subst fp1.
  cbn [fd_file fd_off].
  destruct (Nat.min COPY_BUF_SIZE (readable_len f - fd_off source_fp)) eqn:Hk;
    [discriminate|lia].
Qed.

(** [copy_file], line 64 *)
Definition copy_file (source destination : string) : io unit :=
  let* dest_fp := fopen_w destination in
  if negb dest_fp then log_error ("Can't open " +:+ destination)
  else
    let* source_fp := fopen_r source in
    match source_fp with
    | Some fp =>
        let* fp1 := copy_loop destination fp in
        check_and_fclose (ferror_r fp1) source
    | None => ret tt
    end ;;;
    check_and_fclose false destination.

(** [file_exists], line 82 *)
Definition file_exists (filename : string) : io bool :=
  access_R_OK filename.

(** [file_size], line 119 *)
Definition file_size (path : string) : io nat :=
  let* r := stat_size path in
  match r with
  | None => ret 0
  | Some sz => ret sz
  end.

(** [buf1.size()], the two 16 KiB arrays of [compare_file] *)
Definition BUF_SIZE : nat := 1024 * 16.

(** The [while (bytes_remain > 0)] loop of [compare_file], lines 140-154.
    [bytes_remain] is never updated by the body, so the same value is passed
    to the next iteration; what advances is the offset of the descriptors. *)
Equations? compare_loop (file1 file2 : string) (bytes_remain : nat)
    (fd1 fd2 : fd) (st : state) : bool * state by wf (fd_left fd1) lt :=
  compare_loop file1 file2 0 fd1 fd2 st := (true, st);
  compare_loop file1 file2 (S r) fd1 fd2 st
    with inspect (ReadFully fd1 (Nat.min (S r) BUF_SIZE) st) => {
    | exist _ (None, st1) _ :=
        (false, snd (log_error ("Failed to read from " +:+ file1) st1));
    | exist _ (Some (buf1, fd1'), st1) e1
        with ReadFully fd2 (Nat.min (S r) BUF_SIZE) st1 => {
        | (None, st2) :=
            (false, snd (log_error ("Failed to read from " +:+ file2) st2));
        | (Some (buf2, fd2'), st2) :=
            if bool_decide (buf1 = buf2)
            then compare_loop file1 file2 (S r) fd1' fd2' st2
            else (false, st2) } }.
Proof.
  (* a successful read of at least one byte moves the offset of [fd1] *)
  match goal with H : read_fully _ _ = Some _ |- _ => rename H into Hread end.
  unfold read_fully, fd_left in *. simpl Nat.eqb in Hread.
  destruct (fd_file fd1) as [f|]; [|discriminate].
  match type of Hread with
  | (if Nat.leb ?a ?b then _ else _) = _ =>
      destruct (Nat.leb_spec a b); [|discriminate]
  end.
  inversion Hread; subst; clear Hread. simpl. lia.
Qed.

(** [compare_file], line 128 *)
Definition compare_file (file1 file2 : string) : io bool :=
  let* e1 := file_exists file1 in
  if negb e1 then ret false else
  let* e2 := file_exists file2 in
  if negb e2 then ret false else
  let* s1 := file_size file1 in
  let* s2 := file_size file2 in
  if negb (Nat.eqb s1 s2) then ret false else
  let* fd1 := open_rdonly file1 in
  let* fd2 := open_rdonly file2 in
  let* bytes_remain := file_size file1 in
  compare_loop file1 file2 bytes_remain fd1 fd2.

(** The [ssize_t] a [size_t] converts to. *)
Definition ssize_of_size (n : nat) : Z :=
  if (Z.of_nat n <? 2 ^ 63)%Z then Z.of_nat n else (Z.of_nat n - 2 ^ 64)%Z.

(** The [ssize_t] a [bool] converts to. *)
Definition ssize_of_bool (b : bool) : Z := if b then 1%Z else 0%Z.

(** A record of the pmsg buffer as the record source hands it to the
    callback: the file name below the prefix directory, and the content. *)
Record log_record := LogRecord {
  rec_name : string;
  rec_content : list byte
}.

(** [strstr(haystack, needle) != NULL] and the helpers of the mount scan. *)
Fixpoint is_prefix (needle s : list byte) : bool :=
  match needle, s with
  | [], _ => true
  | _ :: _, [] => false
  | a :: needle', b :: s' => bool_decide (a = b) && is_prefix needle' s'
  end.

Fixpoint strstr (haystack needle : list byte) : bool :=
  is_prefix needle haystack ||
  match haystack with
  | [] => false
  | _ :: rest => strstr rest needle
  end.

(** A buffer read as a C string: cut at the first NUL. *)
Fixpoint c_str (l : list byte) : list byte :=
  match l with
  | [] => []
  | b :: rest => if bool_decide (b = x00) then [] else b :: c_str rest
  end.

(** The lines [getline] returns one after the other; [cur] is the line
    being read, most recent byte first. *)
Fixpoint getlines (l cur : list byte) : list (list byte) :=
  match l with
  | [] => match cur with [] => [] | _ => [rev cur] end
  | b :: rest =>
      if bool_decide (b = x0a) then rev (b :: cur) :: getlines rest []
      else getlines rest (b :: cur)
  end.

Definition mounts_file : string := "/proc/mounts".

(** Lines 181-198 of [main]: is /cache a mount point? *)
Definition cache_is_mounted : io bool :=
  let* fp := fopen_r mounts_file in
  match fp with
  | None => log_error ("failed to open " +:+ mounts_file) ;;; ret false
  | Some d =>
      let text := fst (fread_bytes d (fd_left d)) in
      ret (existsb (fun line => strstr (c_str line) (String.list_byte_of_string " /cache "))
                   (getlines text []))
  end.

Section Persist.

(** What one rotation does to the files, given the two paths it is called
    with.  The renames are the logging library's business. *)
Variable rotate_effect : string -> string -> filesystem -> filesystem.

(** The two paths of recovery_utils/parse_install_logs.h. *)
Variable LAST_INSTALL_FILE : string.
Variable LAST_INSTALL_FILE_IN_CACHE : string.

(** Modelled from the spec: [rotate_logs] of recovery_utils/logging.h, whose
    body is not part of this file.  It is the rotation primitive: the first
    call of a run moves the current logs to their backup slots and latches;
    every later call of the run does nothing. *)
Definition rotate_logs (last_log_file last_kmsg_file : string) : io unit :=
  fun st =>
    if rotate_logs_done st
    then (tt, State (st_fs st) (rotated st) true (EvRotateLogs false :: st_trace st))
    else (tt, State (rotate_effect last_log_file last_kmsg_file (st_fs st))
                    (rotated st) true (EvRotateLogs true :: st_trace st)).

(** [logsave], line 88.  [buf] holds the [len] bytes of the record. *)
Definition logsave (filename : string) (buf : list byte) : io Z :=
  let len := length buf in
  let destination := "/data/misc/" +:+ filename in
  let buffer := buf in
  let* content := ReadFileToString destination in
  if bool_decide (buffer = content) then ret (ssize_of_size len)
  else
    rotate_logs LAST_LOG_FILE LAST_KMSG_FILE ;;;
    set_rotated true ;;;
    let* ok := WriteStringToFile buffer destination in
    ret (ssize_of_bool ok).

(** [rotate_last_kmsg], line 158 *)
Definition rotate_last_kmsg : io unit :=
  let* r := get_rotated in
  if r then ret tt else
  let* c1 := file_exists LAST_CONSOLE_FILE in
  let* c2 := if negb c1 then file_exists ALT_LAST_CONSOLE_FILE else ret true in
  if negb c1 && negb c2 then ret tt else
  let* m1 := compare_file LAST_KMSG_FILE LAST_CONSOLE_FILE in
  let* m2 := if negb m1 then compare_file LAST_KMSG_FILE ALT_LAST_CONSOLE_FILE
             else ret true in
  if negb m1 && negb m2
  then rotate_logs LAST_LOG_FILE LAST_KMSG_FILE ;;; set_rotated true
  else ret tt.

(** [__android_log_pmsg_file_read(..., logsave, NULL)], line 220: the record
    source calls back once per stored record, in order.  [records] is what
    it delivers; its own result is not used by [main]. *)
Fixpoint pmsg_file_read (records : list log_record)
    (fn : string -> list byte -> io Z) : io unit :=
  match records with
  | [] => ret tt
  | r :: rest => fn (rec_name r) (rec_content r) ;;; pmsg_file_read rest fn
  end.

(** Lines 200-217 of [main]: [None] when [main] returns early, else
    [Some has_cache]. *)
Definition main_gate (argv : list string) : io (option bool) :=
  let* has_cache := cache_is_mounted in
  let* leave :=
    if has_cache then
      let* e := file_exists LAST_INSTALL_FILE_IN_CACHE in
      (if e then
         let* ok := unlink LAST_INSTALL_FILE_IN_CACHE in
         if negb ok then log_error ("Failed to unlink " +:+ LAST_INSTALL_FILE_IN_CACHE)
         else ret tt
       else ret tt) ;;;
      match argv with
      | _ :: arg1 :: _ => ret (negb (bool_decide (arg1 = "--force-persist")))
      | _ => ret true
      end
    else ret false in
  if leave then ret None else
  let* e := file_exists LAST_PMSG_FILE in
  if negb e then ret None else ret (Some has_cache).

(** Lines 232-239 of [main]: seed last_kmsg from the console. *)
Definition seed_last_kmsg : io unit :=
  let* r := get_rotated in
  if r then
    let* c1 := file_exists LAST_CONSOLE_FILE in
    if c1 then copy_file LAST_CONSOLE_FILE LAST_KMSG_FILE
    else
      let* c2 := file_exists ALT_LAST_CONSOLE_FILE in
      if c2 then copy_file ALT_LAST_CONSOLE_FILE LAST_KMSG_FILE else ret tt
  else ret tt.

(** Lines 219-239 of [main]. *)
Definition main_persist (has_cache : bool) (records : list log_record) : io unit :=
  pmsg_file_read records logsave ;;;
  (if negb has_cache then
     let* e := file_exists LAST_INSTALL_FILE in
     if e then
       let* ok := unlink LAST_INSTALL_FILE in
       if negb ok then log_error ("Failed to unlink " +:+ LAST_INSTALL_FILE)
       else ret tt
     else ret tt
   else ret tt) ;;;
  rotate_last_kmsg ;;;
  seed_last_kmsg.

(** [main], line 172: the exit code and the world it leaves. *)
Definition main (argv : list string) (records : list log_record) : io Z :=
  let* gate := main_gate argv in
  match gate with
  | None => ret 0%Z
  | Some has_cache => main_persist has_cache records ;;; ret 0%Z
  end.

End Persist.

(** * Vocabulary of the properties *)

(** [frame R m]: every run of [m] relates the world before to the world
    after by [R]. *)
Definition frame (R : relation state) {A} (m : io A) : Prop :=
  forall st, R st (exec m st).

(** The flags are untouched and the trace grows by events in [Q]. *)
Definition extends (Q : event -> Prop) (st st' : state) : Prop :=
  rotated st' = rotated st /\
  rotate_logs_done st' = rotate_logs_done st /\
  exists new, st_trace st' = new ++ st_trace st /\ Forall Q new.

(** As [extends], and the files are untouched too. *)
Definition reads (Q : event -> Prop) (st st' : state) : Prop :=
  st_fs st' = st_fs st /\ extends Q st st'.

(** Rotations performed so far, and calls of the rotation primitive. *)
Definition is_rotation (e : event) : bool :=
  match e with EvRotateLogs true => true | _ => false end.

Definition is_rotate_call (e : event) : bool :=
  match e with EvRotateLogs _ => true | _ => false end.

Definition count_events (p : event -> bool) (tr : list event) : nat :=
  length (List.filter p tr).

Definition rotations (st : state) : nat := count_events is_rotation (st_trace st).

(** What a read of [compare_file] may look like in the trace: at most one
    buffer of bytes. *)
Definition compare_event (file1 file2 : string) (e : event) : Prop :=
  match e with
  | EvAccess p | EvStat p | EvOpen p => p = file1 \/ p = file2
  | EvRead _ _ n => n <= BUF_SIZE
  | EvLog _ => True
  | _ => False
  end.

(** The event of opening [path] for writing. *)
Definition is_fopen_w (path : string) (e : event) : bool :=
  match e with
  | EvFopenW p _ => bool_decide (p = path)
  | _ => false
  end.

(** What [copy_file] may leave in the trace. *)
Definition copy_event (source destination : string) (e : event) : Prop :=
  match e with
  | EvFopenW p _ => p = destination
  | EvFopenR p _ => p = source
  | EvFread _ _ => True
  | EvLog _ => True
  | _ => False
  end.

(** What the seeding step may leave in the trace: existence checks of the
    two console sources and the calls of [copy_file]; no [stat], no [open],
    no [read] of last_kmsg. *)
Definition seed_event (e : event) : Prop :=
  match e with
  | EvAccess p => p = LAST_CONSOLE_FILE \/ p = ALT_LAST_CONSOLE_FILE
  | EvFopenW p _ => p = LAST_KMSG_FILE
  | EvFopenR p _ => p = LAST_CONSOLE_FILE \/ p = ALT_LAST_CONSOLE_FILE
  | EvFread _ _ => True
  | EvLog _ => True
  | _ => False
  end.

(** An event that is not a call of the rotation primitive. *)
Definition quiet (e : event) : Prop := is_rotate_call e = false.

(** Rotations still allowed in this run: one until the latch is set. *)
Definition pending (st : state) : nat :=
  if rotate_logs_done st then 0 else 1.

(** Performed plus pending rotations stay constant, and the latch, once
    set, stays set. *)
Definition rot_inv (st st' : state) : Prop :=
  rotations st' + pending st' = rotations st + pending st /\
  (rotate_logs_done st = true -> rotate_logs_done st' = true).

(** The record does not match what is stored at its destination. *)
Definition differs (r : log_record) (st : state) : bool :=
  negb (bool_decide
          (rec_content r = stored_content (st_fs st) ("/data/misc/" +:+ rec_name r))).

(** How many of the records differ from what is stored when they arrive. *)
Fixpoint count_differing (rotate_effect : string -> string -> filesystem -> filesystem)
    (records : list log_record) (st : state) : nat :=
  match records with
  | [] => 0
  | r :: rest =>
      (if differs r st then 1 else 0) +
      count_differing rotate_effect rest (exec (logsave rotate_effect (rec_name r) (rec_content r)) st)
  end.

(** ** Vocabulary of the further properties *)

(** Calls of the rotation primitive so far. *)
Definition rotate_calls (st : state) : nat :=
  count_events is_rotate_call (st_trace st).

(** [rotated] is set after exactly when it was set before or the rotation
    primitive has been called in between. *)
Definition flag_tracks (st st' : state) : Prop :=
  rotate_calls st <= rotate_calls st' /\
  rotated st' = rotated st || Nat.ltb (rotate_calls st) (rotate_calls st').

(** Every file but the one at [path] is as before. *)
Definition keeps_others (path : string) (st st' : state) : Prop :=
  forall p, p <> path -> lookup_file (st_fs st') p = lookup_file (st_fs st) p.



(** Nothing stands at [path], or a file that can be read to its end. *)
Definition absent_or_clean (fs : filesystem) (path : string) : bool :=
  match lookup_file fs path with
  | Some f => f_readable f && bool_decide (f_fault f = None)
  | None => true
  end.

(** What the prologue of [main] may leave in the trace. *)
Definition gate_event (last_install_in_cache : string) (e : event) : Prop :=
  match e with
  | EvFopenR p _ => p = mounts_file
  | EvAccess p => p = last_install_in_cache \/ p = LAST_PMSG_FILE
  | EvUnlink p _ => p = last_install_in_cache
  | EvLog _ => True
  | _ => False
  end.

(** [needle] occurs in [haystack]. *)
Definition infix (needle haystack : list byte) : Prop :=
  exists pre post, haystack = pre ++ needle ++ post.

(** The second test of line 209: [argv[1]] is there and is --force-persist. *)
Definition forced (argv : list string) : bool :=
  match argv with
  | _ :: arg1 :: _ => bool_decide (arg1 = "--force-persist")
  | _ => false
  end.

(** ** Sample worlds *)

(** A rotation for the concrete runs: each of the two logs moves to its
    slot ".1". *)
Definition rename_file (fs : filesystem) (old new : string) : filesystem :=
  match lookup_file fs old with
  | Some f => set_file (remove_file fs old) new f
  | None => fs
  end.

Definition sample_rotation (last_log_file last_kmsg_file : string)
    (fs : filesystem) : filesystem :=
  rename_file (rename_file fs last_log_file (last_log_file +:+ ".1"))
              last_kmsg_file (last_kmsg_file +:+ ".1").

(** A readable, writable file without faults. *)
Definition regular (s : string) : file :=
  File (String.list_byte_of_string s) true true None.

(** The start of a process: no rotation yet, nothing traced. *)
Definition boot (files : gmap string file) : state :=
  State (Filesystem files ∅) false false [].

Definition sample_install : string := "/data/misc/recovery/last_install".
Definition sample_install_in_cache : string := "/cache/recovery/last_install".

(** No log stored yet. *)
Definition st_fresh : state := boot ∅.

(** A stored file that can be read and not written. *)
Definition st_readonly : state :=
  boot (<[sample_install := File (String.list_byte_of_string "old") true false None]> ∅).

(** last_log holds "old". *)
Definition st_logged : state := boot (<[LAST_LOG_FILE := regular "old"]> ∅).

(** pmsg holds records, /cache is not mounted, a console is present. *)
Definition st_pmsg : state :=
  boot (<[LAST_PMSG_FILE := regular "pmsg"]>
        (<[mounts_file := regular "rootfs / rootfs ro 0 0"]>
         (<[LAST_LOG_FILE := regular "old"]>
          (<[LAST_CONSOLE_FILE := regular "console"]> ∅)))).

Definition sample_records : list log_record :=
  [LogRecord "recovery/last_log" (String.list_byte_of_string "new");
   LogRecord "recovery/last_install" (String.list_byte_of_string "1")].

(** A rotation has happened, both console sources are present, last_kmsg
    holds something else. *)
Definition st_rotated : state :=
  State (Filesystem (<[LAST_KMSG_FILE := regular "stale"]>
                     (<[LAST_CONSOLE_FILE := regular "primary"]>
                      (<[ALT_LAST_CONSOLE_FILE := regular "alternate"]> ∅))) ∅)
        true true [].

(** Two files of different sizes. *)
Definition st_sizes : state := boot (<["/k" := regular "ab"]> (<["/c" := regular "abc"]> ∅)).

(** last_kmsg already holds what the alternate console holds. *)
Definition st_reconciled : state :=
  boot (<[LAST_KMSG_FILE := regular "a"]> (<[ALT_LAST_CONSOLE_FILE := regular "a"]> ∅)).

(** One file of one byte. *)
Definition st_one_byte : state := boot (<["/a" := regular "a"]> ∅).

(** A source with a read fault at offset 3, and a destination that holds
    something else. *)
Definition st_faulty : state :=
  boot (<["/src" := File (String.list_byte_of_string "abcdef") true true (Some 3)]>
        (<["/dst" := regular "zzz"]> (<["/other" := regular "o"]> ∅))).

(** /cache is mounted and pmsg holds records. *)
Definition st_cache : state :=
  boot (<[LAST_PMSG_FILE := regular "pmsg"]>
        (<[mounts_file := regular "/dev/block/by-name/cache /cache ext4 rw 0 0"]> ∅)).

(** * Properties *)

(** ** The monad *)

Lemma exec_bind {A B} (m : io A) (k : A -> io B) st :
  exec (bind m k) st = exec (k (eval m st)) (exec m st).
Proof. unfold exec, eval, bind. destruct (m st). reflexivity. Qed.

Lemma eval_bind {A B} (m : io A) (k : A -> io B) st :
  eval (bind m k) st = eval (k (eval m st)) (exec m st).
Proof. unfold exec, eval, bind. destruct (m st). reflexivity. Qed.

Lemma run_eta {A} (m : io A) st : m st = (eval m st, exec m st).
Proof. unfold eval, exec. destruct (m st). reflexivity. Qed.

#[global] Instance extends_preorder Q : PreOrder (extends Q).
Proof.
  split.
  - intros st. repeat split. exists []. split; [reflexivity|constructor].
  - intros s1 s2 s3 (Hr1 & Hd1 & n1 & Ht1 & Hq1) (Hr2 & Hd2 & n2 & Ht2 & Hq2).
    repeat split; [congruence|congruence|].
    exists (n2 ++ n1). split.
    + rewrite Ht2, Ht1, app_assoc. reflexivity.
    + apply Forall_app. split; assumption.
Qed.

#[global] Instance reads_preorder Q : PreOrder (reads Q).
Proof.
  split.
  - intros st. split; reflexivity.
  - intros s1 s2 s3 [Hf1 He1] [Hf2 He2]. split; [congruence|].
    etransitivity; eassumption.
Qed.

Lemma reads_extends Q st st' : reads Q st st' -> extends Q st st'.
Proof. intros [_ H]. exact H. Qed.

Lemma extends_weaken (Q Q' : event -> Prop) st st' :
  (forall e, Q e -> Q' e) -> extends Q st st' -> extends Q' st st'.
Proof.
  intros HQ (Hr & Hd & new & Ht & Hq). repeat split; try assumption.
  exists new. split; [assumption|]. eapply Forall_impl; eassumption.
Qed.

Lemma frame_ret R `{!Reflexive R} {A} (a : A) : frame R (ret a).
Proof. intros st. unfold exec, ret. simpl. reflexivity. Qed.

Lemma frame_bind R `{!Transitive R} {A B} (m : io A) (k : A -> io B) :
  frame R m -> (forall a, frame R (k a)) -> frame R (bind m k).
Proof.
  intros Hm Hk st. rewrite exec_bind. etransitivity; [apply Hm|apply Hk].
Qed.

Lemma frame_weaken (R R' : relation state) {A} (m : io A) :
  (forall st st', R st st' -> R' st st') -> frame R m -> frame R' m.
Proof. intros HR Hm st. apply HR, Hm. Qed.

Lemma frame_emit Q e : Q e -> frame (reads Q) (emit e).
Proof.
  intros He st. unfold exec, emit. simpl. repeat split.
  exists [e]. split; [reflexivity|]. constructor; [assumption|constructor].
Qed.

Lemma frame_get_fs Q : frame (reads Q) get_fs.
Proof. intros st. unfold exec, get_fs. simpl. reflexivity. Qed.

Lemma frame_get_rotated Q : frame (reads Q) get_rotated.
Proof. intros st. unfold exec, get_rotated. simpl. reflexivity. Qed.

Lemma frame_put_fs Q fs : frame (extends Q) (put_fs fs).
Proof.
  intros st. unfold exec, put_fs. simpl. repeat split.
  exists []. split; [reflexivity|constructor].
Qed.

Lemma frame_reads_extends Q {A} (m : io A) :
  frame (reads Q) m -> frame (extends Q) m.
Proof. apply frame_weaken. intros st st'. apply reads_extends. Qed.

(** One step of a frame proof: follow the structure of the computation. *)
Ltac frame_step :=
  match goal with
  | |- frame _ (ret _) => apply frame_ret; try typeclasses eauto
  | |- frame _ (bind _ _) => apply frame_bind; [typeclasses eauto| |intros ?]
  | |- frame (reads _) (emit _) => apply frame_emit
  | |- frame (extends _) (emit _) => apply frame_reads_extends, frame_emit
  | |- frame (reads _) get_fs => apply frame_get_fs
  | |- frame (extends _) get_fs => apply frame_reads_extends, frame_get_fs
  | |- frame (reads _) get_rotated => apply frame_get_rotated
  | |- frame (extends _) get_rotated => apply frame_reads_extends, frame_get_rotated
  | |- frame (extends _) (put_fs _) => apply frame_put_fs
  | |- frame _ (log_error _) => unfold log_error
  | |- frame _ (if ?b then _ else _) => destruct b
  | |- frame _ (match ?x with _ => _ end) => destruct x
  end.

Ltac frame_auto := repeat frame_step.

Lemma count_events_app p (l1 l2 : list event) :
  count_events p (l1 ++ l2) = count_events p l1 + count_events p l2.
Proof. unfold count_events. rewrite List.filter_app, length_app. reflexivity. Qed.

Lemma count_events_none p (l : list event) :
  Forall (fun e => p e = false) l -> count_events p l = 0.
Proof.
  unfold count_events. induction 1 as [|e l He _ IH]; [reflexivity|].
  simpl. rewrite He. exact IH.
Qed.

Lemma extends_count (Q : event -> Prop) p st st' :
  (forall e, Q e -> p e = false) ->
  extends Q st st' ->
  count_events p (st_trace st') = count_events p (st_trace st).
Proof.
  intros HQ (_ & _ & new & Ht & Hq). rewrite Ht, count_events_app.
  rewrite count_events_none; [reflexivity|].
  eapply Forall_impl; [exact Hq|exact HQ].
Qed.

(** ** The primitives *)

Lemma frame_access (Q : event -> Prop) path :
  Q (EvAccess path) -> frame (reads Q) (access_R_OK path).
Proof. intros HQ. unfold access_R_OK. frame_auto. exact HQ. Qed.

Lemma file_exists_run path st :
  file_exists path st = (readable (st_fs st) path, logged (EvAccess path) st).
Proof. reflexivity. Qed.

Lemma file_size_run path st :
  file_size path st = (size_of (st_fs st) path, logged (EvStat path) st).
Proof.
  unfold file_size, stat_size, size_of, bind, get_fs, emit, ret, logged.
  destruct (lookup_file (st_fs st) path); reflexivity.
Qed.

Lemma open_rdonly_run path st :
  open_rdonly path st = (opened (st_fs st) path, logged (EvOpen path) st).
Proof. reflexivity. Qed.

Lemma ReadFileToString_run path st :
  ReadFileToString path st = (stored_content (st_fs st) path, logged (EvReadFile path) st).
Proof. reflexivity. Qed.

Lemma WriteStringToFile_run bytes path st :
  WriteStringToFile bytes path st =
  match creat_trunc (st_fs st) path with
  | Some fs1 =>
      (true, logged (EvWriteFile path true)
               (State (append_file fs1 path bytes) (rotated st) (rotate_logs_done st)
                      (st_trace st)))
  | None => (false, logged (EvWriteFile path false) st)
  end.
Proof.
  unfold WriteStringToFile, bind, get_fs. cbn [fst snd].
  destruct (creat_trunc (st_fs st) path); reflexivity.
Qed.

(** ** The comparison loop *)

(** With a non-zero [bytes_remain] the loop has one way out: [return false].
    Nothing in the body changes [bytes_remain], so the test at the head of
    the loop never fails once it has passed. *)
Lemma compare_loop_never_true file1 file2 r fd1 fd2 st :
  0 < r -> eval (compare_loop file1 file2 r fd1 fd2) st = false.
Proof.
  intros Hr. funelim (compare_loop file1 file2 r fd1 fd2 st).
  - lia.
  - unfold eval. rewrite <- Heqcall. reflexivity.
  - unfold eval in *. rewrite <- Heqcall.
    destruct (bool_decide (buf1 = buf2)); [auto|reflexivity].
  - unfold eval. rewrite <- Heqcall. reflexivity.
Qed.

Lemma compare_loop_zero file1 file2 fd1 fd2 st :
  compare_loop file1 file2 0 fd1 fd2 st = (true, st).
Proof. simp compare_loop. reflexivity. Qed.

Lemma reads_cons (Q : event -> Prop) st fs r d tr e :
  Q e -> reads Q st (State fs r d tr) -> reads Q st (State fs r d (e :: tr)).
Proof.
  intros He (Hf & Hr & Hd & new & Ht & Hq). simpl in *.
  repeat split; try assumption.
  exists (e :: new). split; [rewrite Ht; reflexivity|]. constructor; assumption.
Qed.

Lemma reads_eta (Q : event -> Prop) st :
  reads Q st (State (st_fs st) (rotated st) (rotate_logs_done st) (st_trace st)).
Proof. destruct st. reflexivity. Qed.

Ltac reads_trace_by tac :=
  unfold logged, log_error, emit;
  cbn [st_fs rotated rotate_logs_done st_trace snd fst];
  repeat (apply reads_cons; [solve [tac]|]); apply reads_eta.

Ltac reads_trace := reads_trace_by auto.

Lemma frame_compare_loop (Q : event -> Prop) file1 file2 r fd1 fd2 :
  (forall p off, Q (EvRead p off (Nat.min r BUF_SIZE))) ->
  (forall msg, Q (EvLog msg)) ->
  frame (reads Q) (compare_loop file1 file2 r fd1 fd2).
Proof.
  intros Hread Hlog st. unfold exec.
  funelim (compare_loop file1 file2 r fd1 fd2 st); try clear Heqcall.
  - reflexivity.
  - reads_trace.
  - destruct (bool_decide (buf1 = buf2)).
    + etransitivity; [|apply H; assumption]. reads_trace.
    + reads_trace.
  - reads_trace.
Qed.

Lemma compare_file_run file1 file2 st :
  compare_file file1 file2 st =
  let fs := st_fs st in
  let st1 := logged (EvAccess file1) st in
  let st2 := logged (EvAccess file2) st1 in
  let st4 := logged (EvStat file2) (logged (EvStat file1) st2) in
  let st7 := logged (EvStat file1) (logged (EvOpen file2) (logged (EvOpen file1) st4)) in
  if negb (readable fs file1) then (false, st1)
  else if negb (readable fs file2) then (false, st2)
  else if negb (Nat.eqb (size_of fs file1) (size_of fs file2)) then (false, st4)
  else compare_loop file1 file2 (size_of fs file1) (opened fs file1) (opened fs file2) st7.
Proof.
  unfold compare_file. cbv zeta.
  unfold bind at 1. rewrite file_exists_run.
  destruct (readable (st_fs st) file1); [|reflexivity]. cbn [negb].
  unfold bind at 1. rewrite file_exists_run. cbn [logged st_fs].
  destruct (readable (st_fs st) file2); [|reflexivity]. cbn [negb].
  unfold bind at 1. rewrite file_size_run.
  unfold bind at 1. rewrite file_size_run. cbn [logged st_fs].
  destruct (Nat.eqb (size_of (st_fs st) file1) (size_of (st_fs st) file2)); [|reflexivity].
  cbn [negb].
  unfold bind at 1. rewrite open_rdonly_run.
  unfold bind at 1. rewrite open_rdonly_run.
  unfold bind at 1. rewrite file_size_run. reflexivity.
Qed.

(** ** compare_file *)

(** The verdict of [compare_file] in closed form: the loop can only answer
    [true] by not being entered. *)
Lemma compare_file_eval file1 file2 st :
  eval (compare_file file1 file2) st =
  readable (st_fs st) file1 && readable (st_fs st) file2 &&
  Nat.eqb (size_of (st_fs st) file1) (size_of (st_fs st) file2) &&
  Nat.eqb (size_of (st_fs st) file1) 0.
Proof.
  unfold eval. rewrite compare_file_run. cbv zeta.
  destruct (readable (st_fs st) file1); [|reflexivity].
  destruct (readable (st_fs st) file2); [|reflexivity].
  destruct (Nat.eqb (size_of (st_fs st) file1) (size_of (st_fs st) file2));
    [|reflexivity].
  cbn [negb andb].
  destruct (size_of (st_fs st) file1) as [|n].
  - rewrite compare_loop_zero. reflexivity.
  - apply (compare_loop_never_true file1 file2 (S n)). lia.
Qed.

Lemma frame_compare_file file1 file2 :
  frame (reads (compare_event file1 file2)) (compare_file file1 file2).
Proof.
  intros st. unfold exec. rewrite compare_file_run. cbv zeta.
  destruct (readable (st_fs st) file1); cbn [negb];
    [|reads_trace_by ltac:(cbn; auto)].
  destruct (readable (st_fs st) file2); cbn [negb];
    [|reads_trace_by ltac:(cbn; auto)].
  destruct (Nat.eqb _ _); cbn [negb];
    [|reads_trace_by ltac:(cbn; auto)].
  etransitivity; [|apply frame_compare_loop].
  - reads_trace_by ltac:(cbn; auto).
  - intros p off. cbn. apply Nat.le_min_r.
  - intros msg. exact I.
Qed.

Lemma readable_lookup fs path :
  readable fs path = true -> exists f, lookup_file fs path = Some f /\ f_readable f = true.
Proof.
  unfold readable. destruct (lookup_file fs path) as [f|]; [|discriminate].
  intros H. exists f. split; [reflexivity|assumption].
Qed.

Lemma size_zero_content fs path :
  readable fs path = true -> size_of fs path = 0 -> content fs path = Some [].
Proof.
  intros Hr Hs. apply readable_lookup in Hr as (f & Hf & _).
  unfold size_of, content in *. rewrite Hf in *. simpl.
  destruct (f_data f); [reflexivity|discriminate].
Qed.

(** A [true] verdict means both files can be read and hold the same
    bytes. *)
Lemma compare_file_true_equal file1 file2 st :
  eval (compare_file file1 file2) st = true ->
  readable (st_fs st) file1 = true /\ readable (st_fs st) file2 = true /\
  content (st_fs st) file1 = content (st_fs st) file2.
Proof.
  rewrite compare_file_eval. intros H.
  apply andb_prop in H as [H Hz]. apply andb_prop in H as [H Hs].
  apply andb_prop in H as [H1 H2].
  apply Nat.eqb_eq in Hz, Hs.
  split; [assumption|]. split; [assumption|].
  rewrite (size_zero_content _ _ H1 Hz).
  rewrite (size_zero_content _ _ H2); [reflexivity|congruence].
Qed.

(** C6: [compare_file] answers [false] when a path cannot be read, when
    the sizes differ (after two [access] and two [stat] calls and nothing
    else: no file is opened or read), and when a read fails while
    streaming; it answers [true] only for files with the same bytes; it
    reads at most one 16 KiB buffer per call and changes nothing. *)
Theorem compare_file_contract file1 file2 st :
  let fs := st_fs st in
  let b := eval (compare_file file1 file2) st in
  let st' := exec (compare_file file1 file2) st in
  (readable fs file1 = false \/ readable fs file2 = false -> b = false) /\
  (readable fs file1 = true -> readable fs file2 = true ->
   size_of fs file1 <> size_of fs file2 ->
   b = false /\
   st_trace st' =
     [EvStat file2; EvStat file1; EvAccess file2; EvAccess file1] ++ st_trace st) /\
  (readable fs file1 = true -> readable fs file2 = true ->
   size_of fs file1 = size_of fs file2 ->
   read_fails fs file1 \/ read_fails fs file2 -> b = false) /\
  (b = true ->
   readable fs file1 = true /\ readable fs file2 = true /\
   content fs file1 = content fs file2) /\
  BUF_SIZE = 16 * 1024 /\
  reads (compare_event file1 file2) st st'.
Proof.
  cbv zeta. rewrite compare_file_eval.
  split; [|split; [|split; [|split; [|split]]]].
  - intros [-> | ->]; [reflexivity|].
    rewrite andb_false_r. reflexivity.
  - intros Hr1 Hr2 Hsz. apply Nat.eqb_neq in Hsz. split.
    + rewrite Hsz, andb_false_r. reflexivity.
    + unfold exec. rewrite compare_file_run. cbv zeta.
      rewrite Hr1, Hr2, Hsz. reflexivity.
  - intros Hr1 Hr2 Hsz Hfail.
    assert (size_of (st_fs st) file1 <> 0) as Hne.
    { destruct Hfail as [(f & o & Hf & _ & Ho) | (f & o & Hf & _ & Ho)].
      - unfold size_of. rewrite Hf. lia.
      - rewrite Hsz. unfold size_of. rewrite Hf. lia. }
    apply Nat.eqb_neq in Hne. rewrite Hne. apply andb_false_r.
  - rewrite <- compare_file_eval. apply compare_file_true_equal.
  - reflexivity.
  - apply frame_compare_file.
Qed.

(** C7: the verdict of [compare_file] does not depend on the order of its
    two arguments. *)
Theorem compare_file_symmetric file1 file2 st :
  eval (compare_file file1 file2) st = eval (compare_file file2 file1) st.
Proof.
  rewrite !compare_file_eval.
  destruct (readable (st_fs st) file1), (readable (st_fs st) file2);
    try reflexivity.
  cbn [andb].
  destruct (Nat.eqb_spec (size_of (st_fs st) file1) (size_of (st_fs st) file2))
    as [Heq|Hne].
  - rewrite Heq, Nat.eqb_refl. reflexivity.
  - destruct (Nat.eqb_spec (size_of (st_fs st) file2) (size_of (st_fs st) file1));
      [congruence|reflexivity].
Qed.

(** A file compared with itself: equal only if empty. *)
Lemma compare_file_self path st :
  eval (compare_file path path) st =
  readable (st_fs st) path && Nat.eqb (size_of (st_fs st) path) 0.
Proof.
  rewrite compare_file_eval, Nat.eqb_refl.
  destruct (readable (st_fs st) path); reflexivity.
Qed.

Lemma compare_file_unreadable path st :
  readable (st_fs st) path = false -> eval (compare_file path path) st = false.
Proof. intros H. rewrite compare_file_self, H. reflexivity. Qed.

(** ** Writing primitives *)

Lemma extends_cons (Q : event -> Prop) st fs r d tr e :
  Q e -> extends Q st (State fs r d tr) -> extends Q st (State fs r d (e :: tr)).
Proof.
  intros He (Hr & Hd & new & Ht & Hq). simpl in *.
  repeat split; try assumption.
  exists (e :: new). split; [rewrite Ht; reflexivity|]. constructor; assumption.
Qed.

Lemma extends_fs (Q : event -> Prop) st fs :
  extends Q st (State fs (rotated st) (rotate_logs_done st) (st_trace st)).
Proof. repeat split. exists []. split; [reflexivity|constructor]. Qed.

Ltac extends_trace_by tac :=
  unfold logged, log_error, emit, fwrite, put_fs, get_fs, bind;
  cbn [st_fs rotated rotate_logs_done st_trace snd fst];
  repeat (apply extends_cons; [solve [tac]|]); apply extends_fs.

Lemma frame_WriteStringToFile (Q : event -> Prop) bytes path :
  (forall ok, Q (EvWriteFile path ok)) ->
  frame (extends Q) (WriteStringToFile bytes path).
Proof. intros HQ. unfold WriteStringToFile. frame_auto; apply HQ. Qed.

Lemma frame_fopen_w (Q : event -> Prop) path :
  (forall ok, Q (EvFopenW path ok)) -> frame (extends Q) (fopen_w path).
Proof. intros HQ. unfold fopen_w. frame_auto; apply HQ. Qed.

Lemma frame_fopen_r (Q : event -> Prop) path :
  (forall ok, Q (EvFopenR path ok)) -> frame (reads Q) (fopen_r path).
Proof. intros HQ. unfold fopen_r. frame_auto; apply HQ. Qed.

Lemma frame_unlink (Q : event -> Prop) path :
  (forall ok, Q (EvUnlink path ok)) -> frame (extends Q) (unlink path).
Proof. intros HQ. unfold unlink. frame_auto; apply HQ. Qed.

Lemma frame_check_and_fclose (Q : event -> Prop) err name :
  (forall msg, Q (EvLog msg)) -> frame (reads Q) (check_and_fclose err name).
Proof. intros HQ. unfold check_and_fclose. frame_auto. apply HQ. Qed.

Lemma frame_copy_loop (Q : event -> Prop) destination fp :
  (forall p n, Q (EvFread p n)) ->
  frame (extends Q) (copy_loop destination fp).
Proof.
  intros HQ st. unfold exec.
  funelim (copy_loop destination fp st); try clear Heqcall.
  - extends_trace_by auto.
  - etransitivity; [|apply H; assumption]. extends_trace_by auto.
Qed.

(** The part of [copy_file] that runs once the destination is open. *)
Lemma frame_copy_file_tail (Q : event -> Prop) source destination :
  (forall ok, Q (EvFopenR source ok)) ->
  (forall p n, Q (EvFread p n)) ->
  (forall msg, Q (EvLog msg)) ->
  frame (extends Q)
    (let* source_fp := fopen_r source in
     match source_fp with
     | Some fp =>
         let* fp1 := copy_loop destination fp in
         check_and_fclose (ferror_r fp1) source
     | None => ret tt
     end ;;;
     check_and_fclose false destination).
Proof.
  intros HR HF HL.
  apply frame_bind; [typeclasses eauto| |].
  - apply frame_reads_extends, frame_fopen_r, HR.
  - intros source_fp. apply frame_bind; [typeclasses eauto| |].
    + destruct source_fp as [fp|]; [|frame_auto].
      apply frame_bind; [typeclasses eauto| |].
      * apply frame_copy_loop, HF.
      * intros fp1. apply frame_reads_extends, frame_check_and_fclose, HL.
    + intros _. apply frame_reads_extends, frame_check_and_fclose, HL.
Qed.

Lemma frame_copy_file source destination :
  frame (extends (copy_event source destination)) (copy_file source destination).
Proof.
  unfold copy_file.
  apply frame_bind; [typeclasses eauto|apply frame_fopen_w; reflexivity|].
  intros [|]; cbn [negb].
  - apply frame_copy_file_tail; intros; exact I || reflexivity.
  - frame_auto. exact I.
Qed.

(** [copy_file] opens its destination for writing exactly once. *)
Lemma copy_file_opens_once source destination st :
  count_events (is_fopen_w destination) (st_trace (exec (copy_file source destination) st)) =
  count_events (is_fopen_w destination) (st_trace st) + 1.
Proof.
  unfold copy_file. rewrite exec_bind.
  assert (count_events (is_fopen_w destination) (st_trace (exec (fopen_w destination) st)) =
          count_events (is_fopen_w destination) (st_trace st) + 1) as H1.
  { unfold exec, fopen_w, bind, get_fs.
    destruct (creat_trunc (st_fs st) destination); cbn [fst snd];
      unfold count_events; simpl; rewrite bool_decide_true by reflexivity; simpl; lia. }
  rewrite <- H1.
  apply (extends_count (fun e => is_fopen_w destination e = false)); [auto|].
  destruct (eval (fopen_w destination) st); cbn [negb].
  - apply frame_copy_file_tail; reflexivity.
  - unfold log_error. apply frame_reads_extends, frame_emit. reflexivity.
Qed.

(** ** What copy_file writes *)

Lemma lookup_set_file_eq fs path f :
  lookup_file (set_file fs path f) path = Some f.
Proof. unfold lookup_file, set_file. simpl. apply lookup_insert_eq. Qed.

Lemma lookup_set_file_ne fs path path' f :
  path <> path' -> lookup_file (set_file fs path f) path' = lookup_file fs path'.
Proof. intros H. unfold lookup_file, set_file. simpl. apply lookup_insert_ne, H. Qed.

Lemma lookup_append_file fs path bytes g :
  lookup_file fs path = Some g ->
  lookup_file (append_file fs path bytes) path =
  Some (File (f_data g ++ bytes) (f_readable g) (f_writable g) (f_fault g)).
Proof. intros H. unfold append_file. rewrite H. apply lookup_set_file_eq. Qed.

Lemma creat_trunc_lookup fs path fs1 :
  creat_trunc fs path = Some fs1 ->
  exists g, lookup_file fs1 path = Some g /\ f_data g = [].
Proof.
  unfold creat_trunc. destruct (lookup_file fs path) as [f|].
  - destruct (f_writable f); [|discriminate]. intros [= <-].
    eexists. split; [apply lookup_set_file_eq|reflexivity].
  - destruct (bool_decide _); [discriminate|]. intros [= <-].
    eexists. split; [apply lookup_set_file_eq|reflexivity].
Qed.

Lemma creat_trunc_other fs path fs1 path' :
  creat_trunc fs path = Some fs1 -> path <> path' ->
  lookup_file fs1 path' = lookup_file fs path'.
Proof.
  unfold creat_trunc. destruct (lookup_file fs path) as [f|].
  - destruct (f_writable f); [|discriminate]. intros [= <-] Hne.
    apply lookup_set_file_ne, Hne.
  - destruct (bool_decide _); [discriminate|]. intros [= <-] Hne.
    apply lookup_set_file_ne, Hne.
Qed.

Lemma fread_bytes_some fp f n :
  fd_file fp = Some f ->
  fread_bytes fp n =
  (firstn (Nat.min n (readable_len f - fd_off fp)) (skipn (fd_off fp) (f_data f)),
   Fd (fd_path fp) (Some f) (fd_off fp + Nat.min n (readable_len f - fd_off fp))).
Proof. intros H. unfold fread_bytes. rewrite H. reflexivity. Qed.

Lemma take_min_nil {A} n m (l : list A) :
  0 < n -> firstn (Nat.min n m) l = [] -> firstn m l = [].
Proof.
  intros Hn H. destruct l as [|a l]; [apply firstn_nil|].
  destruct m as [|m]; [reflexivity|].
  destruct n as [|n]; [lia|]. discriminate H.
Qed.

(** The loop appends to the destination everything that can still be read
    from the source stream. *)
Lemma copy_loop_content destination fp st :
  forall f g,
  fd_file fp = Some f ->
  lookup_file (st_fs st) destination = Some g ->
  lookup_file (st_fs (exec (copy_loop destination fp) st)) destination =
  Some (File (f_data g ++ firstn (readable_len f - fd_off fp) (skipn (fd_off fp) (f_data f)))
             (f_readable g) (f_writable g) (f_fault g)).
Proof.
  unfold exec.
  funelim (copy_loop destination fp st); try clear Heqcall; intros f g Hf Hg.
  - pose proof e as e2. rewrite (fread_bytes_some _ _ _ Hf) in e2.
    pose proof (f_equal fst e2) as Hnil. cbn [fst] in Hnil.
    apply take_min_nil in Hnil; [|unfold COPY_BUF_SIZE; lia].
    rewrite Hnil, app_nil_r. cbn [snd]. unfold emit. cbn [snd st_fs].
    rewrite Hg. destruct g; reflexivity.
  - pose proof e as e2. rewrite (fread_bytes_some _ _ _ Hf) in e2.
    pose proof (f_equal fst e2) as Hchunk. pose proof (f_equal snd e2) as Hfp.
    cbn [fst snd] in Hchunk, Hfp. clear e2.
    set (k := Nat.min COPY_BUF_SIZE (readable_len f - fd_off source_fp)) in *.
    match goal with
    | IH : forall f g, fd_file fp1 = Some f -> _ |- _ => erewrite IH; cycle 1
    end.
    + rewrite <- Hfp. reflexivity.
    + unfold bind, emit, fwrite, get_fs, put_fs. cbn [fst snd st_fs].
      apply lookup_append_file, Hg.
    + rewrite <- Hfp. cbn [fd_off f_data f_readable f_writable f_fault].
      rewrite <- Hchunk, <- app_assoc.
      rewrite <- (drop_drop (f_data f) k (fd_off source_fp)), take_take_drop.
      assert (k + (readable_len f - (fd_off source_fp + k)) =
              readable_len f - fd_off source_fp) as -> by (subst k; lia).
      reflexivity.
Qed.

(** With a destination that can be opened and a source that is another,
    readable file, [copy_file] leaves in the destination what can be read
    from the source, whatever the destination held. *)
Lemma copy_file_content source destination st fs1 f :
  source <> destination ->
  creat_trunc (st_fs st) destination = Some fs1 ->
  lookup_file (st_fs st) source = Some f ->
  f_readable f = true ->
  content (st_fs (exec (copy_file source destination) st)) destination =
  Some (firstn (readable_len f) (f_data f)).
Proof.
  intros Hne Hw Hs Hr.
  unfold copy_file. rewrite exec_bind.
  assert (fopen_w destination st =
          (true, logged (EvFopenW destination true)
                   (State fs1 (rotated st) (rotate_logs_done st) (st_trace st)))) as Hopen.
  { unfold fopen_w, bind, get_fs. rewrite Hw. reflexivity. }
  unfold eval at 1, exec at 2. rewrite Hopen. cbn [fst snd negb].
  set (st1 := logged _ _).
  assert (lookup_file (st_fs st1) source = Some f) as Hs1.
  { subst st1. cbn [logged st_fs]. rewrite <- Hs.
    eapply creat_trunc_other; [exact Hw|]. congruence. }
  destruct (creat_trunc_lookup _ _ _ Hw) as (g & Hg & Hgd).
  rewrite exec_bind.
  assert (fopen_r source st1 =
          (Some (Fd source (Some f) 0), logged (EvFopenR source true) st1)) as Hopenr.
  { unfold fopen_r, bind, get_fs. cbn [fst snd]. rewrite Hs1, Hr. reflexivity. }
  unfold eval at 1, exec at 2. rewrite Hopenr. cbn [fst snd].
  rewrite exec_bind, exec_bind.
  set (st2 := logged _ st1).
  pose proof (copy_loop_content destination (Fd source (Some f) 0) st2 f g eq_refl) as Hloop.
  cbn [fd_off] in Hloop. rewrite Nat.sub_0_r, drop_0, Hgd, app_nil_l in Hloop.
  specialize (Hloop Hg).
  set (st3 := exec (copy_loop destination _) st2) in *.
  unfold content.
  match goal with
  | |- context [st_fs (exec ?m2 (exec ?m1 st3))] =>
      assert (st_fs (exec m2 (exec m1 st3)) = st_fs st3) as ->
  end.
  { etransitivity; [apply (frame_check_and_fclose (fun _ => True)); auto|].
    apply (frame_check_and_fclose (fun _ => True)); auto. }
  rewrite Hloop. reflexivity.
Qed.

(** ** Rotation bookkeeping *)

#[global] Instance rot_inv_preorder : PreOrder rot_inv.
Proof.
  split.
  - intros st. split; auto.
  - intros s1 s2 s3 [H1 L1] [H2 L2]. split; [lia|auto].
Qed.

Lemma quiet_not_rotation e : quiet e -> is_rotation e = false.
Proof. destruct e as [| | | | | | | | | |[|]|]; cbv; congruence. Qed.

Lemma extends_rot_inv (Q : event -> Prop) st st' :
  (forall e, Q e -> quiet e) -> extends Q st st' -> rot_inv st st'.
Proof.
  intros HQ H. pose proof H as (Hr & Hd & _).
  unfold rot_inv, pending, rotations. rewrite Hd. split; [|auto].
  f_equal. eapply extends_count; [|exact H].
  intros e He. apply quiet_not_rotation, HQ, He.
Qed.

Lemma frame_rot_inv (Q : event -> Prop) {A} (m : io A) :
  (forall e, Q e -> quiet e) -> frame (extends Q) m -> frame rot_inv m.
Proof. intros HQ. apply frame_weaken. intros st st'. apply extends_rot_inv, HQ. Qed.

Lemma compare_event_quiet file1 file2 e : compare_event file1 file2 e -> quiet e.
Proof. destruct e; cbv; tauto. Qed.

Lemma copy_event_quiet source destination e : copy_event source destination e -> quiet e.
Proof. destruct e; cbv; tauto. Qed.

Lemma frame_set_rotated b : frame rot_inv (set_rotated b).
Proof. intros st. unfold exec, set_rotated. simpl. split; auto. Qed.

(** Primitives in a frame proof. *)
Ltac frame_prim :=
  match goal with
  | |- frame (reads _) (file_exists _) => apply frame_access
  | |- frame (extends _) (file_exists _) => apply frame_reads_extends, frame_access
  | |- frame (reads _) (fopen_r _) => apply frame_fopen_r; intros ?
  | |- frame (extends _) (fopen_r _) => apply frame_reads_extends, frame_fopen_r; intros ?
  | |- frame (extends _) (unlink _) => apply frame_unlink; intros ?
  | |- frame (extends _) (fopen_w _) => apply frame_fopen_w; intros ?
  end.

Ltac frame_all := repeat (frame_step || frame_prim).

Lemma frame_cache_is_mounted : frame (reads quiet) cache_is_mounted.
Proof. unfold cache_is_mounted. frame_all; reflexivity. Qed.

(** ** The dedup writer *)

Section PersistProperties.

Variable rotate_effect : string -> string -> filesystem -> filesystem.
Variable LAST_INSTALL_FILE : string.
Variable LAST_INSTALL_FILE_IN_CACHE : string.

Lemma frame_rotate_logs a b : frame rot_inv (rotate_logs rotate_effect a b).
Proof.
  intros st. unfold exec, rotate_logs, rot_inv, pending, rotations.
  destruct (rotate_logs_done st); cbn [st_trace rotate_logs_done snd];
    unfold count_events; simpl; split; auto; lia.
Qed.

Lemma rotate_logs_latches a b st : rotate_logs_done (exec (rotate_logs rotate_effect a b) st) = true.
Proof. unfold exec, rotate_logs. destruct (rotate_logs_done st); reflexivity. Qed.

Lemma logsave_run filename buf st :
  let destination := "/data/misc/" +:+ filename in
  let st1 := logged (EvReadFile destination) st in
  let st2 := exec (set_rotated true) (exec (rotate_logs rotate_effect LAST_LOG_FILE LAST_KMSG_FILE) st1) in
  logsave rotate_effect filename buf st =
  if bool_decide (buf = stored_content (st_fs st) destination)
  then (ssize_of_size (length buf), st1)
  else (ssize_of_bool (eval (WriteStringToFile buf destination) st2),
        exec (WriteStringToFile buf destination) st2).
Proof.
  cbv zeta. unfold logsave. cbv zeta.
  unfold bind at 1. rewrite ReadFileToString_run.
  destruct (bool_decide _); [reflexivity|].
  unfold bind at 1. rewrite (run_eta (rotate_logs rotate_effect _ _)).
  unfold bind at 1. rewrite (run_eta (set_rotated _)).
  unfold bind at 1. rewrite (run_eta (WriteStringToFile _ _)).
  reflexivity.
Qed.

Lemma frame_logsave filename buf : frame rot_inv (logsave rotate_effect filename buf).
Proof.
  intros st. unfold exec. rewrite logsave_run. cbv zeta.
  destruct (bool_decide _); cbn [snd].
  - apply (extends_rot_inv quiet); [auto|].
    unfold logged. apply extends_cons; [reflexivity|apply extends_fs].
  - etransitivity; [|eapply (frame_rot_inv quiet); [auto|];
                      apply frame_WriteStringToFile; reflexivity].
    etransitivity; [|apply frame_set_rotated].
    etransitivity; [|apply frame_rotate_logs].
    apply (extends_rot_inv quiet); [auto|].
    unfold logged. apply extends_cons; [reflexivity|apply extends_fs].
Qed.

Lemma logsave_latches r st :
  differs r st = true ->
  rotate_logs_done (exec (logsave rotate_effect (rec_name r) (rec_content r)) st) = true /\
  rotated (exec (logsave rotate_effect (rec_name r) (rec_content r)) st) = true.
Proof.
  unfold differs, exec. rewrite logsave_run. cbv zeta.
  destruct (bool_decide _); [discriminate|]. intros _. cbn [snd].
  match goal with
  | |- context [exec (WriteStringToFile ?b ?d) ?s] =>
      pose proof (frame_WriteStringToFile quiet b d (fun _ => eq_refl) s) as (Hr & Hd & _)
  end.
  rewrite Hr, Hd. unfold exec at 1 3, set_rotated. cbn [snd rotated rotate_logs_done].
  split; [apply rotate_logs_latches|reflexivity].
Qed.

Lemma frame_pmsg_file_read records : frame rot_inv (pmsg_file_read records (logsave rotate_effect)).
Proof.
  induction records as [|r rest IH]; simpl.
  - apply frame_ret. typeclasses eauto.
  - apply frame_bind; [typeclasses eauto|apply frame_logsave|intros _; exact IH].
Qed.

Lemma pmsg_file_read_latches records st :
  1 <= count_differing rotate_effect records st ->
  rotate_logs_done (exec (pmsg_file_read records (logsave rotate_effect)) st) = true.
Proof.
  revert st. induction records as [|r rest IH]; intros st; simpl; [lia|].
  rewrite exec_bind. destruct (differs r st) eqn:Hd.
  - intros _. apply frame_pmsg_file_read.
    apply logsave_latches, Hd.
  - intros H. apply IH. exact H.
Qed.

(** Every differing record calls the rotation primitive, no other does. *)
Lemma logsave_calls r st :
  count_events is_rotate_call
    (st_trace (exec (logsave rotate_effect (rec_name r) (rec_content r)) st)) =
  count_events is_rotate_call (st_trace st) + (if differs r st then 1 else 0).
Proof.
  unfold differs, exec. rewrite logsave_run. cbv zeta.
  destruct (bool_decide _); cbn [negb snd].
  - unfold logged, count_events. simpl. lia.
  - match goal with
    | |- context [exec (WriteStringToFile ?b ?d) ?s] =>
        rewrite (extends_count quiet is_rotate_call s (exec (WriteStringToFile b d) s))
    end.
    + unfold exec, set_rotated, rotate_logs, logged, count_events.
      destruct (rotate_logs_done st); simpl; lia.
    + auto.
    + apply frame_WriteStringToFile. reflexivity.
Qed.

Lemma pmsg_file_read_calls records st :
  count_events is_rotate_call
    (st_trace (exec (pmsg_file_read records (logsave rotate_effect)) st)) =
  count_events is_rotate_call (st_trace st) + count_differing rotate_effect records st.
Proof.
  revert st. induction records as [|r rest IH]; intros st; simpl.
  - unfold exec, ret. simpl. lia.
  - rewrite exec_bind. cbv beta. rewrite IH, logsave_calls. lia.
Qed.

(** ** Frames of the program's functions *)

Lemma frame_rot_file_exists path : frame rot_inv (file_exists path).
Proof. apply (frame_rot_inv quiet); [auto|]. frame_all. reflexivity. Qed.

Lemma frame_rot_get_rotated : frame rot_inv get_rotated.
Proof. apply (frame_rot_inv quiet); [auto|]. frame_all. Qed.

Lemma frame_rot_compare_file file1 file2 : frame rot_inv (compare_file file1 file2).
Proof.
  eapply frame_rot_inv; [apply compare_event_quiet|].
  apply frame_reads_extends, frame_compare_file.
Qed.

Lemma frame_rot_copy_file source destination :
  frame rot_inv (copy_file source destination).
Proof. eapply frame_rot_inv; [apply copy_event_quiet|apply frame_copy_file]. Qed.

Lemma frame_rot_unlink path : frame rot_inv (unlink path).
Proof. apply (frame_rot_inv quiet); [auto|]. frame_all; reflexivity. Qed.

Lemma frame_rot_log_error msg : frame rot_inv (log_error msg).
Proof. apply (frame_rot_inv quiet); [auto|]. frame_all. reflexivity. Qed.

Lemma frame_rot_cache_is_mounted : frame rot_inv cache_is_mounted.
Proof.
  apply (frame_rot_inv quiet); [auto|].
  apply frame_reads_extends, frame_cache_is_mounted.
Qed.

Ltac rot_step :=
  first
    [ apply frame_rot_file_exists | apply frame_rot_get_rotated
    | apply frame_rot_compare_file | apply frame_rot_copy_file
    | apply frame_rot_unlink | apply frame_rot_log_error
    | apply frame_rot_cache_is_mounted | apply frame_set_rotated
    | apply frame_rotate_logs | apply frame_logsave | apply frame_pmsg_file_read
    | frame_step ].

Lemma frame_rotate_last_kmsg : frame rot_inv (rotate_last_kmsg rotate_effect).
Proof. unfold rotate_last_kmsg. repeat rot_step. Qed.

Lemma frame_seed_last_kmsg : frame rot_inv seed_last_kmsg.
Proof. unfold seed_last_kmsg. repeat rot_step. Qed.

Lemma frame_main_gate argv : frame rot_inv (main_gate LAST_INSTALL_FILE_IN_CACHE argv).
Proof. unfold main_gate. repeat rot_step. Qed.

Lemma frame_main_persist has_cache records :
  frame rot_inv (main_persist rotate_effect LAST_INSTALL_FILE has_cache records).
Proof.
  unfold main_persist.
  repeat first [apply frame_rotate_last_kmsg | apply frame_seed_last_kmsg | rot_step].
Qed.

Lemma frame_main argv records :
  frame rot_inv (main rotate_effect LAST_INSTALL_FILE LAST_INSTALL_FILE_IN_CACHE argv records).
Proof.
  unfold main.
  repeat first [apply frame_main_gate | apply frame_main_persist | rot_step].
Qed.

(** The invariant of the rotation state: a run performs at most one
    rotation. *)
Lemma main_at_most_one_rotation argv records st :
  rotations (exec (main rotate_effect LAST_INSTALL_FILE LAST_INSTALL_FILE_IN_CACHE
                     argv records) st) <= rotations st + 1.
Proof.
  destruct (frame_main argv records st) as [H _].
  unfold pending in H.
  destruct (rotate_logs_done st), (rotate_logs_done (exec _ st)); lia.
Qed.

(** ** The claims about the run *)

(** C1: in a run that delivers its records, with at least one of them
    differing from what is stored when it arrives, exactly one rotation is
    performed: by the end of the delivery and by the end of [main].  The
    rotation primitive is called once per differing record; the calls after
    the first find the latch set. *)
Theorem one_rotation_per_run argv records st has_cache st1 :
  rotate_logs_done st = false ->
  main_gate LAST_INSTALL_FILE_IN_CACHE argv st = (Some has_cache, st1) ->
  1 <= count_differing rotate_effect records st1 ->
  let st2 := exec (pmsg_file_read records (logsave rotate_effect)) st1 in
  let st' := exec (main rotate_effect LAST_INSTALL_FILE LAST_INSTALL_FILE_IN_CACHE
                     argv records) st in
  rotations st2 = rotations st + 1 /\
  rotations st' = rotations st + 1 /\
  count_events is_rotate_call (st_trace st2) =
    count_events is_rotate_call (st_trace st1) + count_differing rotate_effect records st1.
Proof.
  intros Hfresh Hgate Hm. cbv zeta.
  pose proof (frame_main_gate argv st) as [Hg _].
  unfold exec at 1 2 in Hg. rewrite Hgate in Hg. cbn [snd] in Hg.
  pose proof (frame_pmsg_file_read records st1) as [Hp _].
  pose proof (pmsg_file_read_latches records st1 Hm) as Hl.
  set (st2 := exec (pmsg_file_read records (logsave rotate_effect)) st1) in *.
  assert (rotations st2 = rotations st + 1) as H2.
  { unfold pending in *. rewrite Hfresh, Hl in *. lia. }
  split; [exact H2|]. split; [|apply pmsg_file_read_calls].
  assert (exec (main rotate_effect LAST_INSTALL_FILE LAST_INSTALL_FILE_IN_CACHE
                  argv records) st =
          exec (main_persist rotate_effect LAST_INSTALL_FILE has_cache records) st1) as ->.
  { unfold main. rewrite exec_bind. unfold eval, exec at 2. rewrite Hgate.
    cbn [fst snd]. rewrite exec_bind. reflexivity. }
  unfold main_persist. rewrite exec_bind. cbv beta. fold st2.
  match goal with
  | |- rotations (exec ?tail st2) = _ =>
      assert (frame rot_inv tail) as Htail
        by repeat first [apply frame_rotate_last_kmsg | apply frame_seed_last_kmsg | rot_step];
      destruct (Htail st2) as [Ht Hlt]
  end.
  unfold pending in Ht. rewrite (Hlt Hl), Hl in Ht. lia.
Qed.

(** C3: a record equal to what is stored at its destination (nothing, for
    a destination that does not exist) makes [logsave] return its length;
    the files and the flags are as before, the one call made is the read
    of the destination. *)
Theorem logsave_same_content filename buf st :
  buf = stored_content (st_fs st) ("/data/misc/" +:+ filename) ->
  (Z.of_nat (length buf) < 2 ^ 63)%Z ->
  let destination := "/data/misc/" +:+ filename in
  let st' := exec (logsave rotate_effect filename buf) st in
  (lookup_file (st_fs st) destination = None -> buf = []) /\
  eval (logsave rotate_effect filename buf) st = Z.of_nat (length buf) /\
  st_fs st' = st_fs st /\
  rotated st' = rotated st /\
  rotate_logs_done st' = rotate_logs_done st /\
  st_trace st' = EvReadFile destination :: st_trace st.
Proof.
  intros Heq Hlen. cbv zeta. split.
  - intros Hnone. rewrite Heq. unfold stored_content. rewrite Hnone. reflexivity.
  - unfold eval, exec. rewrite logsave_run. cbv zeta.
    rewrite bool_decide_true by exact Heq. cbn [fst snd].
    split; [|repeat split].
    unfold ssize_of_size. destruct (Z.ltb_spec (Z.of_nat (length buf)) (2 ^ 63));
      [reflexivity|lia].
Qed.

(** The write path of [logsave]: the result is the boolean of
    [WriteStringToFile] converted to [ssize_t], 1 or 0, and a successful
    write leaves the record in the destination. *)
Lemma logsave_write_path filename buf st :
  let destination := "/data/misc/" +:+ filename in
  let st2 := exec (set_rotated true)
               (exec (rotate_logs rotate_effect LAST_LOG_FILE LAST_KMSG_FILE)
                  (logged (EvReadFile destination) st)) in
  let st' := exec (logsave rotate_effect filename buf) st in
  buf <> stored_content (st_fs st) destination ->
  eval (logsave rotate_effect filename buf) st =
    match creat_trunc (st_fs st2) destination with
    | Some _ => 1%Z
    | None => 0%Z
    end /\
  rotated st' = true /\
  (creat_trunc (st_fs st2) destination <> None ->
   content (st_fs st') destination = Some buf).
Proof.
  cbv zeta. intros Hne.
  pose proof (logsave_run filename buf st) as Hrun. cbv zeta in Hrun.
  rewrite bool_decide_false in Hrun by exact Hne.
  set (st2 := exec (set_rotated true) _) in *.
  assert (rotated st2 = true) as Hrot by reflexivity.
  unfold eval, exec in Hrun. rewrite WriteStringToFile_run in Hrun.
  unfold eval, exec. rewrite Hrun. clear Hrun.
  destruct (creat_trunc (st_fs st2) ("/data/misc/" +:+ filename)) as [fs1|] eqn:Hc;
    cbn [fst snd logged rotated st_fs].
  - split; [reflexivity|]. split; [exact Hrot|]. intros _.
    destruct (creat_trunc_lookup _ _ _ Hc) as (g & Hg & Hgd).
    unfold content.
    rewrite (lookup_append_file _ _ _ _ Hg), Hgd. reflexivity.
  - split; [reflexivity|]. split; [exact Hrot|]. congruence.
Qed.

(** ** The console reconciler *)

Lemma rotate_last_kmsg_skip st :
  rotated st = true -> rotate_last_kmsg rotate_effect st = (tt, st).
Proof.
  intros H. unfold rotate_last_kmsg, bind, get_rotated. rewrite H. reflexivity.
Qed.

Lemma rotate_last_kmsg_no_console st :
  rotated st = false ->
  readable (st_fs st) LAST_CONSOLE_FILE = false ->
  readable (st_fs st) ALT_LAST_CONSOLE_FILE = false ->
  rotate_last_kmsg rotate_effect st =
  (tt, logged (EvAccess ALT_LAST_CONSOLE_FILE) (logged (EvAccess LAST_CONSOLE_FILE) st)).
Proof.
  intros Hrot H1 H2. unfold rotate_last_kmsg.
  unfold bind at 1, get_rotated. rewrite Hrot.
  unfold bind at 1. rewrite file_exists_run, H1. cbn [negb].
  unfold bind at 1. rewrite file_exists_run. cbn [logged st_fs]. rewrite H2.
  reflexivity.
Qed.

Lemma compare_file_fs file1 file2 st :
  st_fs (exec (compare_file file1 file2) st) = st_fs st.
Proof. apply frame_compare_file. Qed.

Lemma compare_file_flags file1 file2 st :
  rotated (exec (compare_file file1 file2) st) = rotated st.
Proof. apply frame_compare_file. Qed.

Lemma compare_file_eval_fs file1 file2 st st' :
  st_fs st' = st_fs st ->
  eval (compare_file file1 file2) st' = eval (compare_file file1 file2) st.
Proof. intros H. rewrite !compare_file_eval, H. reflexivity. Qed.

(** With a console source present and no rotation so far, the reconciler
    rotates exactly when [compare_file] rejects both candidates. *)
Lemma rotate_last_kmsg_decision st :
  rotated st = false ->
  readable (st_fs st) LAST_CONSOLE_FILE || readable (st_fs st) ALT_LAST_CONSOLE_FILE = true ->
  rotated (exec (rotate_last_kmsg rotate_effect) st) =
  negb (eval (compare_file LAST_KMSG_FILE LAST_CONSOLE_FILE) st) &&
  negb (eval (compare_file LAST_KMSG_FILE ALT_LAST_CONSOLE_FILE) st).
Proof.
  intros Hrot Hsrc. unfold exec, rotate_last_kmsg.
  unfold bind at 1, get_rotated. rewrite Hrot.
  unfold bind at 1. rewrite file_exists_run.
  set (st1 := logged (EvAccess LAST_CONSOLE_FILE) st).
  assert (exists st2,
    st_fs st2 = st_fs st /\ rotated st2 = false /\
    (let* c2 := (if negb (readable (st_fs st) LAST_CONSOLE_FILE)
                 then file_exists ALT_LAST_CONSOLE_FILE else ret true) in
     if negb (readable (st_fs st) LAST_CONSOLE_FILE) && negb c2 then ret tt
     else
       let* m1 := compare_file LAST_KMSG_FILE LAST_CONSOLE_FILE in
       let* m2 := (if negb m1 then compare_file LAST_KMSG_FILE ALT_LAST_CONSOLE_FILE
                   else ret true) in
       if negb m1 && negb m2
       then rotate_logs rotate_effect LAST_LOG_FILE LAST_KMSG_FILE ;;; set_rotated true
       else ret tt) st1 =
    (let* m1 := compare_file LAST_KMSG_FILE LAST_CONSOLE_FILE in
     let* m2 := (if negb m1 then compare_file LAST_KMSG_FILE ALT_LAST_CONSOLE_FILE
                 else ret true) in
     if negb m1 && negb m2
     then rotate_logs rotate_effect LAST_LOG_FILE LAST_KMSG_FILE ;;; set_rotated true
     else ret tt) st2) as (st2 & Hfs2 & Hrot2 & ->).
  { destruct (readable (st_fs st) LAST_CONSOLE_FILE); cbn [negb andb orb] in *.
    - exists st1. repeat split; try assumption. 
    - exists (logged (EvAccess ALT_LAST_CONSOLE_FILE) st1). repeat split; try assumption.
      subst st1. unfold bind at 1. rewrite file_exists_run. cbn [logged st_fs].
      rewrite Hsrc. reflexivity. }
  clear st1.
  unfold bind at 1. rewrite (run_eta (compare_file _ _)).
  rewrite (compare_file_eval_fs _ _ st st2 Hfs2).
  destruct (eval (compare_file LAST_KMSG_FILE LAST_CONSOLE_FILE) st); cbn [negb andb].
  - unfold bind, ret. cbn [snd]. rewrite compare_file_flags. exact Hrot2.
  - unfold bind at 1. rewrite (run_eta (compare_file _ _)).
    rewrite (compare_file_eval_fs _ _ st); [|rewrite compare_file_fs; exact Hfs2].
    destruct (eval (compare_file LAST_KMSG_FILE ALT_LAST_CONSOLE_FILE) st); cbn [negb].
    + unfold ret. cbn [snd]. rewrite !compare_file_flags. exact Hrot2.
    + cbn [andb]. unfold bind. rewrite (run_eta (rotate_logs _ _ _)). reflexivity.
Qed.

(** The direction of the decision that does not depend on how far the
    comparison gets: a last_kmsg that differs from both console sources,
    or is missing, is rotated. *)
Lemma rotate_last_kmsg_rotates_different st :
  rotated st = false ->
  readable (st_fs st) LAST_CONSOLE_FILE || readable (st_fs st) ALT_LAST_CONSOLE_FILE = true ->
  content (st_fs st) LAST_KMSG_FILE <> content (st_fs st) LAST_CONSOLE_FILE ->
  content (st_fs st) LAST_KMSG_FILE <> content (st_fs st) ALT_LAST_CONSOLE_FILE ->
  rotated (exec (rotate_last_kmsg rotate_effect) st) = true.
Proof.
  intros Hrot Hsrc H1 H2. rewrite rotate_last_kmsg_decision by assumption.
  destruct (eval (compare_file LAST_KMSG_FILE LAST_CONSOLE_FILE) st) eqn:E1.
  - apply compare_file_true_equal in E1 as (_ & _ & E1). contradiction.
  - destruct (eval (compare_file LAST_KMSG_FILE ALT_LAST_CONSOLE_FILE) st) eqn:E2.
    + apply compare_file_true_equal in E2 as (_ & _ & E2). contradiction.
    + reflexivity.
Qed.

Lemma rotate_last_kmsg_missing_backup st :
  rotated st = false ->
  readable (st_fs st) LAST_CONSOLE_FILE || readable (st_fs st) ALT_LAST_CONSOLE_FILE = true ->
  lookup_file (st_fs st) LAST_KMSG_FILE = None ->
  rotated (exec (rotate_last_kmsg rotate_effect) st) = true.
Proof.
  intros Hrot Hsrc Hnone. rewrite rotate_last_kmsg_decision by assumption.
  rewrite !compare_file_eval. unfold readable at 1 3. rewrite Hnone. reflexivity.
Qed.

(** C8: [main] returns 0 whatever the arguments, the records and the
    world: no failure along the way reaches the exit code. *)
Theorem main_exit_code argv records st :
  eval (main rotate_effect LAST_INSTALL_FILE LAST_INSTALL_FILE_IN_CACHE argv records) st
  = 0%Z.
Proof.
  unfold main. rewrite eval_bind.
  destruct (eval (main_gate LAST_INSTALL_FILE_IN_CACHE argv) st) as [has_cache|].
  - rewrite eval_bind. reflexivity.
  - reflexivity.
Qed.

End PersistProperties.

(** ** Seeding last_kmsg *)

Lemma seed_last_kmsg_run st :
  let fs := st_fs st in
  let st1 := logged (EvAccess LAST_CONSOLE_FILE) st in
  let st2 := logged (EvAccess ALT_LAST_CONSOLE_FILE) st1 in
  seed_last_kmsg st =
  if rotated st then
    if readable fs LAST_CONSOLE_FILE then copy_file LAST_CONSOLE_FILE LAST_KMSG_FILE st1
    else if readable fs ALT_LAST_CONSOLE_FILE
         then copy_file ALT_LAST_CONSOLE_FILE LAST_KMSG_FILE st2
         else (tt, st2)
  else (tt, st).
Proof.
  cbv zeta. unfold seed_last_kmsg.
  unfold bind at 1, get_rotated. destruct (rotated st); [|reflexivity].
  unfold bind at 1. rewrite file_exists_run.
  destruct (readable (st_fs st) LAST_CONSOLE_FILE); [reflexivity|].
  unfold bind at 1. rewrite file_exists_run. cbn [logged st_fs].
  destruct (readable (st_fs st) ALT_LAST_CONSOLE_FILE); reflexivity.
Qed.

Lemma stored_content_readable fs path f :
  lookup_file fs path = Some f -> f_readable f = true ->
  stored_content fs path = firstn (readable_len f) (f_data f).
Proof. intros Hf Hr. unfold stored_content. rewrite Hf, Hr. reflexivity. Qed.

(** C5: after the reconciler, [main] opens last_kmsg for writing once if
    [rotated] is set and a console source exists, and not at all
    otherwise, in which case no file changes.  The source is the primary
    console when it exists, else the alternate.  When last_kmsg can be
    opened, it ends up holding what the source holds, whatever it held
    before: nothing is compared, last_kmsg is never read. *)
Theorem seed_last_kmsg_copies st :
  let fs := st_fs st in
  let st' := exec seed_last_kmsg st in
  let primary := readable fs LAST_CONSOLE_FILE in
  let alternate := readable fs ALT_LAST_CONSOLE_FILE in
  count_events (is_fopen_w LAST_KMSG_FILE) (st_trace st') =
    count_events (is_fopen_w LAST_KMSG_FILE) (st_trace st) +
    (if rotated st && (primary || alternate) then 1 else 0) /\
  (rotated st && (primary || alternate) = false -> st_fs st' = st_fs st) /\
  (rotated st = true -> primary = true ->
   creat_trunc fs LAST_KMSG_FILE <> None ->
   content (st_fs st') LAST_KMSG_FILE = Some (stored_content fs LAST_CONSOLE_FILE)) /\
  (rotated st = true -> primary = false -> alternate = true ->
   creat_trunc fs LAST_KMSG_FILE <> None ->
   content (st_fs st') LAST_KMSG_FILE = Some (stored_content fs ALT_LAST_CONSOLE_FILE)) /\
  extends seed_event st st'.
Proof.
  cbv zeta. unfold exec. rewrite seed_last_kmsg_run. cbv zeta.
  assert (Hweak1 : forall e, copy_event LAST_CONSOLE_FILE LAST_KMSG_FILE e -> seed_event e).
  { intros []; cbn; tauto. }
  assert (Hweak2 : forall e, copy_event ALT_LAST_CONSOLE_FILE LAST_KMSG_FILE e -> seed_event e).
  { intros []; cbn; tauto. }
  destruct (rotated st) eqn:Hrot; cbn [andb].
  2:{ split; [cbn [snd]; lia|]. split; [reflexivity|].
      split; [discriminate|]. split; [discriminate|]. reflexivity. }
  destruct (readable (st_fs st) LAST_CONSOLE_FILE) eqn:Hp; cbn [orb].
  - split; [|split; [discriminate|split; [|split; [discriminate|]]]].
    + fold (exec (copy_file LAST_CONSOLE_FILE LAST_KMSG_FILE)
                 (logged (EvAccess LAST_CONSOLE_FILE) st)).
      rewrite copy_file_opens_once. reflexivity.
    + intros _ _ Hw.
      destruct (creat_trunc (st_fs st) LAST_KMSG_FILE) as [fs1|] eqn:Hc; [|congruence].
      destruct (readable_lookup _ _ Hp) as (f & Hf & Hr).
      rewrite (stored_content_readable _ _ _ Hf Hr).
      apply (copy_file_content _ _ (logged (EvAccess LAST_CONSOLE_FILE) st) fs1 f);
        [discriminate|exact Hc|exact Hf|exact Hr].
    + etransitivity;
        [|eapply extends_weaken; [exact Hweak1|apply frame_copy_file]].
      unfold logged. apply extends_cons; [cbn; auto|apply extends_fs].
  - destruct (readable (st_fs st) ALT_LAST_CONSOLE_FILE) eqn:Ha.
    + split; [|split; [discriminate|split; [discriminate|split]]].
      * fold (exec (copy_file ALT_LAST_CONSOLE_FILE LAST_KMSG_FILE)
                   (logged (EvAccess ALT_LAST_CONSOLE_FILE)
                      (logged (EvAccess LAST_CONSOLE_FILE) st))).
        rewrite copy_file_opens_once. reflexivity.
      * intros _ _ _ Hw.
        destruct (creat_trunc (st_fs st) LAST_KMSG_FILE) as [fs1|] eqn:Hc; [|congruence].
        destruct (readable_lookup _ _ Ha) as (f & Hf & Hr).
        rewrite (stored_content_readable _ _ _ Hf Hr).
        apply (copy_file_content _ _
                 (logged (EvAccess ALT_LAST_CONSOLE_FILE)
                    (logged (EvAccess LAST_CONSOLE_FILE) st)) fs1 f);
          [discriminate|exact Hc|exact Hf|exact Hr].
      * etransitivity;
          [|eapply extends_weaken; [exact Hweak2|apply frame_copy_file]].
        unfold logged. cbn [st_fs rotated rotate_logs_done st_trace].
        repeat (apply extends_cons; [cbn; auto|]). apply extends_fs.
    + split; [cbn [snd]; unfold logged, count_events; simpl; lia|].
      split; [reflexivity|]. split; [discriminate|]. split; [discriminate|].
      cbn [snd]. unfold logged. cbn [st_fs rotated rotate_logs_done st_trace].
      repeat (apply extends_cons; [cbn; auto|]). apply extends_fs.
Qed.

(** ** copy_file on a missing source *)

Lemma fopen_w_run path st :
  fopen_w path st =
  match creat_trunc (st_fs st) path with
  | Some fs1 =>
      (true, logged (EvFopenW path true)
               (State fs1 (rotated st) (rotate_logs_done st) (st_trace st)))
  | None => (false, logged (EvFopenW path false) st)
  end.
Proof.
  unfold fopen_w, bind, get_fs. cbn [fst snd].
  destruct (creat_trunc (st_fs st) path); reflexivity.
Qed.

Lemma fopen_r_fail path st :
  readable (st_fs st) path = false ->
  fopen_r path st = (None, logged (EvFopenR path false) st).
Proof.
  unfold readable, fopen_r, bind, get_fs. cbn [fst snd].
  destruct (lookup_file (st_fs st) path) as [f|]; [|reflexivity].
  intros ->. reflexivity.
Qed.

(** C9: [copy_file] opens, and so empties, the destination before it tries
    the source.  When the destination can be opened and the source cannot,
    the destination is left empty: what it held is gone. *)
Theorem copy_file_truncates_first source destination st fs1 :
  creat_trunc (st_fs st) destination = Some fs1 ->
  readable fs1 source = false ->
  let st' := exec (copy_file source destination) st in
  content (st_fs st') destination = Some [] /\
  st_fs st' = fs1 /\
  st_trace st' = EvFopenR source false :: EvFopenW destination true :: st_trace st.
Proof.
  intros Hw Hs. cbv zeta.
  assert (copy_file source destination st =
          (tt, logged (EvFopenR source false)
                 (logged (EvFopenW destination true)
                    (State fs1 (rotated st) (rotate_logs_done st) (st_trace st)))))
    as Hrun.
  { unfold copy_file. unfold bind at 1. rewrite fopen_w_run, Hw. cbn [negb].
    unfold bind at 1. rewrite fopen_r_fail by exact Hs. reflexivity. }
  unfold exec. rewrite Hrun. cbn [snd logged st_fs st_trace].
  split; [|split; reflexivity].
  destruct (creat_trunc_lookup _ _ _ Hw) as (g & Hg & Hgd).
  unfold content. rewrite Hg. simpl. rewrite Hgd. reflexivity.
Qed.

(** The source is looked up after the truncation; for a source that is
    another file this is its state before the call. *)
Lemma copy_file_missing_source source destination st fs1 :
  source <> destination ->
  creat_trunc (st_fs st) destination = Some fs1 ->
  readable fs1 source = readable (st_fs st) source.
Proof.
  intros Hne Hw. unfold readable.
  rewrite (creat_trunc_other _ _ _ source Hw); [reflexivity|congruence].
Qed.

(** * Further properties *)

(** ** The flag and the calls of the rotation primitive *)

#[global] Instance flag_tracks_preorder : PreOrder flag_tracks.
Proof.
  split.
  - intros st. split; [lia|]. rewrite Nat.ltb_irrefl, orb_false_r. reflexivity.
  - intros s1 s2 s3 [L1 F1] [L2 F2]. split; [lia|].
    rewrite F2, F1. destruct (rotated s1); [reflexivity|]. cbn [orb].
    destruct (Nat.ltb_spec (rotate_calls s1) (rotate_calls s2)),
             (Nat.ltb_spec (rotate_calls s2) (rotate_calls s3)),
             (Nat.ltb_spec (rotate_calls s1) (rotate_calls s3));
      cbn [orb]; try reflexivity; lia.
Qed.

Lemma extends_flag_tracks (Q : event -> Prop) st st' :
  (forall e, Q e -> quiet e) -> extends Q st st' -> flag_tracks st st'.
Proof.
  intros HQ H. pose proof H as (Hr & _ & _).
  assert (rotate_calls st' = rotate_calls st) as Hc.
  { unfold rotate_calls. eapply extends_count; [|exact H]. exact HQ. }
  split; [lia|]. rewrite Hr, Hc, Nat.ltb_irrefl, orb_false_r. reflexivity.
Qed.

Lemma frame_quiet_flag (Q : event -> Prop) {A} (m : io A) :
  (forall e, Q e -> quiet e) -> frame (extends Q) m -> frame flag_tracks m.
Proof. intros HQ. apply frame_weaken. intros st st'. apply extends_flag_tracks, HQ. Qed.

Lemma reads_weaken (Q Q' : event -> Prop) st st' :
  (forall e, Q e -> Q' e) -> reads Q st st' -> reads Q' st st'.
Proof. intros HQ [Hf He]. split; [assumption|]. eapply extends_weaken; eassumption. Qed.

Lemma reads_compare_file_quiet file1 file2 st :
  reads quiet st (exec (compare_file file1 file2) st).
Proof.
  eapply reads_weaken; [apply compare_event_quiet|apply frame_compare_file].
Qed.

Lemma reads_rotate_calls st st' : reads quiet st st' -> rotate_calls st' = rotate_calls st.
Proof.
  intros [_ H]. unfold rotate_calls. eapply extends_count; [|exact H]. auto.
Qed.

Section FlagProperties.

Variable rotate_effect : string -> string -> filesystem -> filesystem.
Variable LAST_INSTALL_FILE : string.
Variable LAST_INSTALL_FILE_IN_CACHE : string.

(** A call of the primitive followed by [rotated = true], as both call
    sites have it. *)
Lemma rotate_then_set a b st :
  flag_tracks st (exec (set_rotated true) (exec (rotate_logs rotate_effect a b) st)).
Proof.
  unfold flag_tracks, rotate_calls, exec, set_rotated, rotate_logs, count_events.
  destruct (rotate_logs_done st); cbn [snd st_trace rotated List.filter is_rotate_call length].
  - split; [lia|]. rewrite (proj2 (Nat.ltb_lt _ _)) by lia. apply eq_sym, orb_true_r.
  - split; [lia|]. rewrite (proj2 (Nat.ltb_lt _ _)) by lia. apply eq_sym, orb_true_r.
Qed.

Lemma frame_flag_rotate_set a b :
  frame flag_tracks (rotate_logs rotate_effect a b ;;; set_rotated true).
Proof. intros st. rewrite exec_bind. apply rotate_then_set. Qed.

Lemma frame_flag_rotate_set_then {A} a b (m : io A) :
  frame flag_tracks m ->
  frame flag_tracks (rotate_logs rotate_effect a b ;;; set_rotated true ;;; m).
Proof.
  intros Hm st. rewrite exec_bind. cbv beta. rewrite exec_bind. cbv beta.
  etransitivity; [apply rotate_then_set|apply Hm].
Qed.

Ltac flag_leaf :=
  first
    [ eapply frame_quiet_flag;
        [apply compare_event_quiet|apply frame_reads_extends, frame_compare_file]
    | eapply frame_quiet_flag; [apply copy_event_quiet|apply frame_copy_file]
    | apply (frame_quiet_flag quiet);
        [auto|apply frame_reads_extends, frame_cache_is_mounted]
    | apply (frame_quiet_flag quiet);
        [auto|apply frame_WriteStringToFile; reflexivity]
    | apply (frame_quiet_flag quiet);
        [auto|apply frame_reads_extends; unfold ReadFileToString; frame_all; reflexivity]
    | solve [apply (frame_quiet_flag quiet); [auto|frame_all; reflexivity]] ].

Ltac flag_step :=
  first
    [ apply frame_flag_rotate_set
    | apply frame_flag_rotate_set_then
    | flag_leaf
    | frame_step ].

Lemma frame_flag_logsave filename buf :
  frame flag_tracks (logsave rotate_effect filename buf).
Proof. unfold logsave. cbv zeta. repeat flag_step. Qed.

Lemma frame_flag_pmsg_file_read records :
  frame flag_tracks (pmsg_file_read records (logsave rotate_effect)).
Proof.
  induction records as [|r rest IH]; simpl.
  - apply frame_ret. typeclasses eauto.
  - apply frame_bind; [typeclasses eauto|apply frame_flag_logsave|intros _; exact IH].
Qed.

Lemma frame_flag_rotate_last_kmsg : frame flag_tracks (rotate_last_kmsg rotate_effect).
Proof. unfold rotate_last_kmsg. repeat flag_step. Qed.

Lemma frame_flag_seed_last_kmsg : frame flag_tracks seed_last_kmsg.
Proof. unfold seed_last_kmsg. repeat flag_step. Qed.

Lemma frame_flag_main_gate argv :
  frame flag_tracks (main_gate LAST_INSTALL_FILE_IN_CACHE argv).
Proof. unfold main_gate. repeat flag_step. Qed.

Lemma frame_flag_main_persist has_cache records :
  frame flag_tracks (main_persist rotate_effect LAST_INSTALL_FILE has_cache records).
Proof.
  unfold main_persist.
  repeat first [ apply frame_flag_pmsg_file_read | apply frame_flag_rotate_last_kmsg
               | apply frame_flag_seed_last_kmsg | flag_step ].
Qed.

(** X1: whatever the arguments, the records and the files, [rotated] is set
    at the end of [main] exactly when it was set at the start or
    [rotate_logs] has been called during the run; the number of calls never
    goes down. *)
Theorem main_rotated_tracks_calls argv records st :
  let st' := exec (main rotate_effect LAST_INSTALL_FILE LAST_INSTALL_FILE_IN_CACHE
                     argv records) st in
  rotate_calls st <= rotate_calls st' /\
  rotated st' = rotated st || Nat.ltb (rotate_calls st) (rotate_calls st').
Proof.
  cbv zeta.
  assert (frame flag_tracks
            (main rotate_effect LAST_INSTALL_FILE LAST_INSTALL_FILE_IN_CACHE argv records))
    as H.
  { unfold main.
    repeat first [apply frame_flag_main_gate | apply frame_flag_main_persist | flag_step]. }
  exact (H st).
Qed.

(** ** The console reconciler, in full *)

(** With no rotation so far and a console source present, the reconciler
    compares and then either stops or calls the primitive and sets the
    flag; up to there it has only looked at files. *)
Lemma rotate_last_kmsg_run st :
  rotated st = false ->
  readable (st_fs st) LAST_CONSOLE_FILE || readable (st_fs st) ALT_LAST_CONSOLE_FILE = true ->
  exists stc,
    reads quiet st stc /\
    rotate_last_kmsg rotate_effect st =
    if negb (eval (compare_file LAST_KMSG_FILE LAST_CONSOLE_FILE) st) &&
       negb (eval (compare_file LAST_KMSG_FILE ALT_LAST_CONSOLE_FILE) st)
    then (tt, exec (set_rotated true)
                (exec (rotate_logs rotate_effect LAST_LOG_FILE LAST_KMSG_FILE) stc))
    else (tt, stc).
Proof.
  intros Hrot Hsrc. unfold rotate_last_kmsg.
  unfold bind at 1, get_rotated. rewrite Hrot.
  unfold bind at 1. rewrite file_exists_run.
  set (st1 := logged (EvAccess LAST_CONSOLE_FILE) st).
  assert (reads quiet st st1) as Hst1 by (subst st1; reads_trace_by ltac:(reflexivity)).
  assert (exists st2,
    reads quiet st st2 /\
    (let* c2 := (if negb (readable (st_fs st) LAST_CONSOLE_FILE)
                 then file_exists ALT_LAST_CONSOLE_FILE else ret true) in
     if negb (readable (st_fs st) LAST_CONSOLE_FILE) && negb c2 then ret tt
     else
       let* m1 := compare_file LAST_KMSG_FILE LAST_CONSOLE_FILE in
       let* m2 := (if negb m1 then compare_file LAST_KMSG_FILE ALT_LAST_CONSOLE_FILE
                   else ret true) in
       if negb m1 && negb m2
       then rotate_logs rotate_effect LAST_LOG_FILE LAST_KMSG_FILE ;;; set_rotated true
       else ret tt) st1 =
    (let* m1 := compare_file LAST_KMSG_FILE LAST_CONSOLE_FILE in
     let* m2 := (if negb m1 then compare_file LAST_KMSG_FILE ALT_LAST_CONSOLE_FILE
                 else ret true) in
     if negb m1 && negb m2
     then rotate_logs rotate_effect LAST_LOG_FILE LAST_KMSG_FILE ;;; set_rotated true
     else ret tt) st2) as (st2 & Hst2 & ->).
  { destruct (readable (st_fs st) LAST_CONSOLE_FILE); cbn [negb andb orb] in *.
    - exists st1. split; [exact Hst1|reflexivity].
    - exists (logged (EvAccess ALT_LAST_CONSOLE_FILE) st1). split.
      + subst st1. reads_trace_by ltac:(reflexivity).
      + subst st1. unfold bind at 1. rewrite file_exists_run. cbn [logged st_fs].
        rewrite Hsrc. reflexivity. }
  clear st1 Hst1. pose proof Hst2 as [Hfs2 _].
  unfold bind at 1. rewrite (run_eta (compare_file _ _)).
  rewrite (compare_file_eval_fs _ _ st st2 Hfs2).
  set (st3 := exec (compare_file LAST_KMSG_FILE LAST_CONSOLE_FILE) st2).
  assert (reads quiet st st3) as Hst3.
  { etransitivity; [exact Hst2|apply reads_compare_file_quiet]. }
  destruct (eval (compare_file LAST_KMSG_FILE LAST_CONSOLE_FILE) st); cbn [negb andb].
  - exists st3. split; [exact Hst3|reflexivity].
  - unfold bind at 1. rewrite (run_eta (compare_file _ _)).
    rewrite (compare_file_eval_fs _ _ st st3 (proj1 Hst3)).
    set (st4 := exec (compare_file LAST_KMSG_FILE ALT_LAST_CONSOLE_FILE) st3).
    assert (reads quiet st st4) as Hst4.
    { etransitivity; [exact Hst3|apply reads_compare_file_quiet]. }
    destruct (eval (compare_file LAST_KMSG_FILE ALT_LAST_CONSOLE_FILE) st); cbn [negb].
    + exists st4. split; [exact Hst4|reflexivity].
    + exists st4. split; [exact Hst4|].
      unfold bind. rewrite (run_eta (rotate_logs _ _ _)). reflexivity.
Qed.

(** X2: the reconciler does nothing at all when [rotated] is set.  When it
    is not set and no console source can be read, no file changes and the
    primitive is not called.  Otherwise the primitive is called, once, and
    [rotated] set, exactly when [compare_file] rejects last_kmsg against
    both sources; when it accepts one, no file changes. *)
Theorem rotate_last_kmsg_contract st :
  let st' := exec (rotate_last_kmsg rotate_effect) st in
  let source := readable (st_fs st) LAST_CONSOLE_FILE ||
                readable (st_fs st) ALT_LAST_CONSOLE_FILE in
  let reject := negb (eval (compare_file LAST_KMSG_FILE LAST_CONSOLE_FILE) st) &&
                negb (eval (compare_file LAST_KMSG_FILE ALT_LAST_CONSOLE_FILE) st) in
  (rotated st = true -> st' = st) /\
  (rotated st = false -> source = false ->
   st_fs st' = st_fs st /\ rotated st' = false /\ rotate_calls st' = rotate_calls st) /\
  (rotated st = false -> source = true ->
   rotated st' = reject /\
   rotate_calls st' = rotate_calls st + (if reject then 1 else 0) /\
   (reject = false -> st_fs st' = st_fs st)).
Proof.
  cbv zeta. split; [|split].
  - intros H. unfold exec. rewrite rotate_last_kmsg_skip by exact H. reflexivity.
  - intros Hrot Hsrc. apply orb_false_elim in Hsrc as [H1 H2].
    unfold exec. rewrite rotate_last_kmsg_no_console by assumption.
    cbn [snd logged st_fs rotated].
    split; [reflexivity|]. split; [exact Hrot|]. reflexivity.
  - intros Hrot Hsrc.
    destruct (rotate_last_kmsg_run st Hrot Hsrc) as (stc & Hstc & Hrun).
    unfold exec at 1 2 3. rewrite Hrun.
    pose proof (reads_rotate_calls _ _ Hstc) as Hcalls.
    destruct Hstc as (Hfs & Hr & _).
    destruct (negb _ && negb _); cbn [snd].
    + split; [reflexivity|]. split; [|discriminate].
      rewrite <- Hcalls.
      unfold rotate_calls, exec, set_rotated, rotate_logs, count_events.
      destruct (rotate_logs_done stc); simpl; lia.
    + split; [congruence|]. split; [lia|]. intros _. exact Hfs.
Qed.

(** ** The dedup writer, in full *)

Lemma creat_trunc_file fs path fs1 :
  creat_trunc fs path = Some fs1 ->
  lookup_file fs1 path =
  Some (match lookup_file fs path with
        | Some f => File [] (f_readable f) true (f_fault f)
        | None => File [] true true None
        end).
Proof.
  unfold creat_trunc. destruct (lookup_file fs path) as [f|].
  - destruct (f_writable f); [|discriminate]. intros [= <-]. apply lookup_set_file_eq.
  - destruct (bool_decide _); [discriminate|]. intros [= <-]. apply lookup_set_file_eq.
Qed.

Lemma stored_after_write fs path fs1 buf :
  creat_trunc fs path = Some fs1 ->
  absent_or_clean fs path = true ->
  stored_content (append_file fs1 path buf) path = buf.
Proof.
  intros Hc Hclean. pose proof (creat_trunc_file _ _ _ Hc) as Hg.
  unfold stored_content. rewrite (lookup_append_file _ _ _ _ Hg).
  unfold absent_or_clean in Hclean.
  destruct (lookup_file fs path) as [f|]; cbn [f_data f_readable f_fault app].
  - apply andb_prop in Hclean as [Hr Hf]. apply bool_decide_eq_true in Hf.
    rewrite Hr. unfold readable_len. cbn [f_fault f_data]. rewrite Hf.
    apply firstn_all.
  - unfold readable_len. cbn [f_fault f_data]. apply firstn_all.
Qed.

(** X3: a record that differs from what is stored makes [logsave] call the
    rotation primitive once and set [rotated]; the result is 1 when the
    destination could be opened for writing, which then holds exactly the
    record, and 0 when it could not. *)
Theorem logsave_differing_record filename buf st :
  buf <> stored_content (st_fs st) ("/data/misc/" +:+ filename) ->
  let destination := "/data/misc/" +:+ filename in
  let st2 := exec (set_rotated true)
               (exec (rotate_logs rotate_effect LAST_LOG_FILE LAST_KMSG_FILE)
                  (logged (EvReadFile destination) st)) in
  let st' := exec (logsave rotate_effect filename buf) st in
  rotated st' = true /\
  rotate_calls st' = rotate_calls st + 1 /\
  (creat_trunc (st_fs st2) destination <> None ->
   eval (logsave rotate_effect filename buf) st = 1%Z /\
   content (st_fs st') destination = Some buf) /\
  (creat_trunc (st_fs st2) destination = None ->
   eval (logsave rotate_effect filename buf) st = 0%Z /\
   st_fs st' = st_fs st2).
Proof.
  intros Hne. cbv zeta.
  destruct (logsave_write_path rotate_effect filename buf st Hne) as (Hret & Hrot & Hcont).
  split; [exact Hrot|]. split.
  - pose proof (logsave_calls rotate_effect (LogRecord filename buf) st) as Hc.
    cbn [rec_name rec_content] in Hc. unfold rotate_calls. rewrite Hc.
    unfold differs. cbn [rec_name rec_content].
    rewrite bool_decide_false by exact Hne. reflexivity.
  - split.
    + intros Hw. split; [|exact (Hcont Hw)].
      rewrite Hret. destruct (creat_trunc _ _); [reflexivity|congruence].
    + intros Hw. split; [rewrite Hret, Hw; reflexivity|].
      unfold exec at 1. rewrite logsave_run. cbv zeta.
      rewrite bool_decide_false by exact Hne. cbn [snd].
      unfold exec at 1. rewrite WriteStringToFile_run, Hw. reflexivity.
Qed.

(** X4: the result of [logsave] is never negative: the length of the record,
    1 or 0.  A failed write is not reported to the record source as an
    error. *)
Theorem logsave_result_range filename buf st :
  (Z.of_nat (length buf) < 2 ^ 63)%Z ->
  (0 <= eval (logsave rotate_effect filename buf) st)%Z /\
  (eval (logsave rotate_effect filename buf) st = Z.of_nat (length buf) \/
   eval (logsave rotate_effect filename buf) st = 1%Z \/
   eval (logsave rotate_effect filename buf) st = 0%Z).
Proof.
  intros Hlen. unfold eval at 1 2 3 4. rewrite logsave_run. cbv zeta.
  destruct (bool_decide _); cbn [fst].
  - unfold ssize_of_size.
    destruct (Z.ltb_spec (Z.of_nat (length buf)) (2 ^ 63)); [|lia].
    split; [lia|auto].
  - destruct (eval (WriteStringToFile _ _) _); cbn [ssize_of_bool];
      split; try lia; auto.
Qed.

(** X5: delivering the same record again right after a write that
    succeeded, to a destination that was absent or readable to its end, is
    the no-op path: the result is the length, no file changes and the
    rotation primitive is not called. *)
Theorem logsave_redelivery filename buf st fs1 :
  buf <> stored_content (st_fs st) ("/data/misc/" +:+ filename) ->
  (Z.of_nat (length buf) < 2 ^ 63)%Z ->
  creat_trunc
    (st_fs (exec (rotate_logs rotate_effect LAST_LOG_FILE LAST_KMSG_FILE) st))
    ("/data/misc/" +:+ filename) = Some fs1 ->
  absent_or_clean
    (st_fs (exec (rotate_logs rotate_effect LAST_LOG_FILE LAST_KMSG_FILE) st))
    ("/data/misc/" +:+ filename) = true ->
  let st' := exec (logsave rotate_effect filename buf) st in
  let st'' := exec (logsave rotate_effect filename buf) st' in
  eval (logsave rotate_effect filename buf) st' = Z.of_nat (length buf) /\
  st_fs st'' = st_fs st' /\
  rotate_calls st'' = rotate_calls st'.
Proof.
  intros Hne Hlen Hw Hclean. cbv zeta.
  assert (st_fs (exec (logsave rotate_effect filename buf) st) =
          append_file fs1 ("/data/misc/" +:+ filename) buf) as Hfs.
  { unfold exec at 1. rewrite logsave_run. cbv zeta.
    rewrite bool_decide_false by exact Hne. cbn [snd].
    unfold exec at 1. rewrite WriteStringToFile_run.
    replace (st_fs (exec (set_rotated true) _))
      with (st_fs (exec (rotate_logs rotate_effect LAST_LOG_FILE LAST_KMSG_FILE) st)).
    - rewrite Hw. reflexivity.
    - unfold exec, set_rotated, rotate_logs, logged. cbn [snd st_fs rotate_logs_done].
      destruct (rotate_logs_done st); reflexivity. }
  assert (buf = stored_content (st_fs (exec (logsave rotate_effect filename buf) st))
                  ("/data/misc/" +:+ filename)) as Hsame.
  { rewrite Hfs. symmetry. eapply stored_after_write; eassumption. }
  set (st' := exec (logsave rotate_effect filename buf) st) in *.
  unfold eval, exec. rewrite logsave_run. cbv zeta.
  rewrite bool_decide_true by exact Hsame. cbn [fst snd logged st_fs].
  split; [|split; reflexivity].
  unfold ssize_of_size. destruct (Z.ltb_spec (Z.of_nat (length buf)) (2 ^ 63));
    [reflexivity|lia].
Qed.

(** X6: when every record matches what is stored as it arrives, the
    delivery changes no file, leaves the flags alone and never calls the
    rotation primitive. *)
Theorem pmsg_file_read_all_matching records st :
  count_differing rotate_effect records st = 0 ->
  let st' := exec (pmsg_file_read records (logsave rotate_effect)) st in
  st_fs st' = st_fs st /\
  rotated st' = rotated st /\
  rotate_logs_done st' = rotate_logs_done st /\
  rotate_calls st' = rotate_calls st.
Proof.
  cbv zeta. revert st. induction records as [|r rest IH]; intros st Hm.
  - repeat split.
  - simpl in Hm. simpl pmsg_file_read. rewrite exec_bind. cbv beta.
    destruct (differs r st) eqn:Hd; [lia|].
    specialize (IH _ Hm). destruct IH as (H1 & H2 & H3 & H4).
    rewrite H1, H2, H3, H4. clear H1 H2 H3 H4.
    unfold differs in Hd. apply negb_false_iff, bool_decide_eq_true in Hd.
    unfold exec. rewrite logsave_run. cbv zeta.
    rewrite bool_decide_true by exact Hd. cbn [snd].
    repeat split.
Qed.

End FlagProperties.

(** ** compare_file, in closed form *)

(** X7: [compare_file] answers [true] exactly for two readable files that
    are both empty.  For files with content the loop is entered and, as
    nothing in its body changes [bytes_remain], it can only be left through
    a [return false]. *)
Theorem compare_file_verdict file1 file2 st :
  eval (compare_file file1 file2) st = true <->
  readable (st_fs st) file1 = true /\ readable (st_fs st) file2 = true /\
  content (st_fs st) file1 = Some [] /\ content (st_fs st) file2 = Some [].
Proof.
  rewrite compare_file_eval. split.
  - intros H.
    apply andb_prop in H as [H Hz]. apply andb_prop in H as [H Hs].
    apply andb_prop in H as [H1 H2]. apply Nat.eqb_eq in Hz, Hs.
    split; [assumption|]. split; [assumption|].
    split; apply size_zero_content; congruence.
  - intros (H1 & H2 & C1 & C2). rewrite H1, H2. cbn [andb].
    assert (forall p, content (st_fs st) p = Some [] -> size_of (st_fs st) p = 0) as Hsz.
    { intros p. unfold content, size_of.
      destruct (lookup_file (st_fs st) p) as [f|]; [|discriminate].
      simpl. intros [= ->]. reflexivity. }
    rewrite (Hsz _ C1), (Hsz _ C2). reflexivity.
Qed.

(** ** copy_file, in full *)

#[global] Instance keeps_others_preorder path : PreOrder (keeps_others path).
Proof.
  split.
  - intros st p _. reflexivity.
  - intros s1 s2 s3 H1 H2 p Hp. rewrite (H2 p Hp). apply H1, Hp.
Qed.

Lemma reads_keeps_others (Q : event -> Prop) path st st' :
  reads Q st st' -> keeps_others path st st'.
Proof. intros [Hfs _] p _. rewrite Hfs. reflexivity. Qed.

Lemma frame_reads_keeps_others (Q : event -> Prop) path {A} (m : io A) :
  frame (reads Q) m -> frame (keeps_others path) m.
Proof. apply frame_weaken. intros st st'. apply reads_keeps_others. Qed.

Lemma append_file_other fs path bytes p :
  p <> path -> lookup_file (append_file fs path bytes) p = lookup_file fs p.
Proof.
  intros Hp. unfold append_file. destruct (lookup_file fs path); [|reflexivity].
  apply lookup_set_file_ne. congruence.
Qed.

Lemma frame_others_fopen_w path : frame (keeps_others path) (fopen_w path).
Proof.
  intros st. unfold exec. rewrite fopen_w_run.
  destruct (creat_trunc (st_fs st) path) as [fs1|] eqn:Hc; intros p Hp; cbn [snd logged st_fs].
  - eapply creat_trunc_other; [exact Hc|congruence].
  - reflexivity.
Qed.

Lemma frame_others_copy_loop destination fp :
  frame (keeps_others destination) (copy_loop destination fp).
Proof.
  intros st. unfold exec.
  funelim (copy_loop destination fp st); try clear Heqcall.
  - intros p _. reflexivity.
  - etransitivity; [|match goal with IH : keeps_others _ _ _ |- _ => exact IH end].
    intros p Hp. unfold bind, emit, fwrite, get_fs, put_fs. cbn [fst snd st_fs].
    apply append_file_other, Hp.
Qed.

(** X8: [copy_file] changes no file but its destination. *)
Theorem copy_file_keeps_others source destination st p :
  p <> destination ->
  lookup_file (st_fs (exec (copy_file source destination) st)) p =
  lookup_file (st_fs st) p.
Proof.
  revert p.
  change (keeps_others destination st (exec (copy_file source destination) st)).
  revert st. change (frame (keeps_others destination) (copy_file source destination)).
  unfold copy_file.
  apply frame_bind; [typeclasses eauto|apply frame_others_fopen_w|].
  intros [|]; cbn [negb].
  - apply frame_bind; [typeclasses eauto| |].
    + apply (frame_reads_keeps_others (fun _ => True)), frame_fopen_r. auto.
    + intros source_fp. apply frame_bind; [typeclasses eauto| |].
      * destruct source_fp as [fp|]; [|apply frame_ret; typeclasses eauto].
        apply frame_bind; [typeclasses eauto|apply frame_others_copy_loop|].
        intros fp1.
        apply (frame_reads_keeps_others (fun _ => True)), frame_check_and_fclose. auto.
      * intros _.
        apply (frame_reads_keeps_others (fun _ => True)), frame_check_and_fclose. auto.
  - unfold log_error. apply (frame_reads_keeps_others (fun _ => True)), frame_emit. exact I.
Qed.

(** X9: when the destination cannot be opened for writing, [copy_file]
    reports it and stops: no file changes and the source is not opened. *)
Theorem copy_file_unopenable_destination source destination st :
  creat_trunc (st_fs st) destination = None ->
  let st' := exec (copy_file source destination) st in
  st_fs st' = st_fs st /\
  st_trace st' =
    EvLog ("Can't open " +:+ destination) :: EvFopenW destination false :: st_trace st.
Proof.
  intros Hw. cbv zeta.
  assert (copy_file source destination st =
          (tt, logged (EvLog ("Can't open " +:+ destination))
                 (logged (EvFopenW destination false) st))) as Hrun.
  { unfold copy_file. unfold bind at 1. rewrite fopen_w_run, Hw. reflexivity. }
  unfold exec. rewrite Hrun. split; reflexivity.
Qed.





(** ** The prologue of main *)

Lemma frame_others_unlink path : frame (keeps_others path) (unlink path).
Proof.
  intros st p Hp. unfold exec, unlink, bind, get_fs. cbn [fst snd].
  destruct (lookup_file (st_fs st) path); [|reflexivity].
  destruct (bool_decide _); [reflexivity|].
  cbn [put_fs emit snd st_fs]. unfold lookup_file, remove_file. cbn [fs_files].
  apply lookup_delete_ne. congruence.
Qed.

Ltac others_step :=
  first
    [ apply frame_others_unlink
    | solve [apply (frame_reads_keeps_others (fun _ => True)); frame_all; exact I]
    | frame_step ].

Lemma keeps_others_readable path st st' p :
  keeps_others path st st' -> p <> path ->
  readable (st_fs st') p = readable (st_fs st) p.
Proof. intros H Hp. unfold readable. rewrite (H p Hp). reflexivity. Qed.

Lemma eval_file_exists path st :
  eval (file_exists path) st = readable (st_fs st) path.
Proof. reflexivity. Qed.

Section GateProperties.

Variable rotate_effect : string -> string -> filesystem -> filesystem.
Variable LAST_INSTALL_FILE : string.
Variable LAST_INSTALL_FILE_IN_CACHE : string.

Lemma frame_others_main_gate argv :
  frame (keeps_others LAST_INSTALL_FILE_IN_CACHE)
        (main_gate LAST_INSTALL_FILE_IN_CACHE argv).
Proof.
  unfold main_gate.
  apply frame_bind; [typeclasses eauto| |intros has_cache].
  - apply (frame_reads_keeps_others quiet), frame_cache_is_mounted.
  - repeat others_step.
Qed.

Lemma frame_events_main_gate argv :
  frame (extends (gate_event LAST_INSTALL_FILE_IN_CACHE))
        (main_gate LAST_INSTALL_FILE_IN_CACHE argv).
Proof.
  unfold main_gate.
  apply frame_bind; [typeclasses eauto| |intros has_cache].
  - apply frame_reads_extends. unfold cache_is_mounted. frame_all; cbn; auto.
  - frame_all; cbn; auto.
Qed.

(** X11: when [main] returns early (/cache mounted without
    --force-persist, or no pmsg file), no record has been delivered: the
    run has only looked at /proc/mounts, at last_install in /cache and at
    the pmsg file; no file but last_install in /cache has changed, the
    flags are as before and the rotation primitive has not been called. *)
Theorem main_early_return argv records st :
  eval (main_gate LAST_INSTALL_FILE_IN_CACHE argv) st = None ->
  let st' := exec (main rotate_effect LAST_INSTALL_FILE LAST_INSTALL_FILE_IN_CACHE
                     argv records) st in
  (forall p, p <> LAST_INSTALL_FILE_IN_CACHE ->
             lookup_file (st_fs st') p = lookup_file (st_fs st) p) /\
  extends (gate_event LAST_INSTALL_FILE_IN_CACHE) st st' /\
  rotate_calls st' = rotate_calls st.
Proof.
  intros Hgate. cbv zeta.
  assert (exec (main rotate_effect LAST_INSTALL_FILE LAST_INSTALL_FILE_IN_CACHE
                  argv records) st =
          exec (main_gate LAST_INSTALL_FILE_IN_CACHE argv) st) as ->.
  { unfold main. rewrite exec_bind, Hgate. reflexivity. }
  split; [apply frame_others_main_gate|].
  split; [apply frame_events_main_gate|].
  unfold rotate_calls.
  apply (extends_count (gate_event LAST_INSTALL_FILE_IN_CACHE));
    [|apply frame_events_main_gate].
  intros []; cbn; tauto.
Qed.

(** X12: the records are delivered exactly when the pmsg file can be read
    and either /cache is not mounted or --force-persist is the first
    argument; the prologue then hands on whether /cache is mounted. *)
Theorem main_gate_decision argv st :
  LAST_INSTALL_FILE_IN_CACHE <> LAST_PMSG_FILE ->
  eval (main_gate LAST_INSTALL_FILE_IN_CACHE argv) st =
  let has_cache := eval cache_is_mounted st in
  if has_cache && negb (forced argv) then None
  else if readable (st_fs st) LAST_PMSG_FILE then Some has_cache else None.
Proof.
  intros Hne. cbv zeta.
  unfold main_gate. rewrite eval_bind.
  pose proof (frame_cache_is_mounted st) as [Hfs1 _].
  set (st1 := exec cache_is_mounted st) in *.
  destruct (eval cache_is_mounted st); cbn [andb].
  - rewrite eval_bind.
    match goal with
    | |- context [eval ?m st1] =>
        assert (eval m st1 = negb (forced argv)) as Hleave
    end.
    { rewrite eval_bind, eval_bind. destruct argv as [|a [|b l]]; reflexivity. }
    rewrite Hleave.
    match goal with
    | |- context [exec ?m st1] => set (st2 := exec m st1)
    end.
    destruct (forced argv); cbn [negb].
    + rewrite eval_bind, eval_file_exists.
      assert (readable (st_fs st2) LAST_PMSG_FILE = readable (st_fs st) LAST_PMSG_FILE) as ->.
      { rewrite <- Hfs1. unfold readable.
        assert (keeps_others LAST_INSTALL_FILE_IN_CACHE st1 st2) as Hk.
        { subst st2.
          match goal with
          | |- keeps_others _ st1 (exec ?m st1) =>
              assert (frame (keeps_others LAST_INSTALL_FILE_IN_CACHE) m) as Hf
                by (repeat others_step);
              exact (Hf st1)
          end. }
        rewrite (Hk LAST_PMSG_FILE); [reflexivity|congruence]. }
      destruct (readable (st_fs st) LAST_PMSG_FILE); reflexivity.
    + reflexivity.
  - rewrite eval_bind. cbn [eval ret fst exec snd].
    rewrite eval_bind, eval_file_exists, Hfs1.
    destruct (readable (st_fs st) LAST_PMSG_FILE); reflexivity.
Qed.

End GateProperties.

(** ** The scan of /proc/mounts *)

Lemma is_prefix_spec needle l :
  is_prefix needle l = true <-> exists post, l = needle ++ post.
Proof.
  revert l. induction needle as [|a needle IH]; intros l; simpl.
  - split; [intros _; exists l; reflexivity|reflexivity].
  - destruct l as [|b l].
    + split; [discriminate|]. intros [post H]. discriminate H.
    + rewrite andb_true_iff, bool_decide_eq_true, IH. split.
      * intros [-> [post ->]]. exists post. reflexivity.
      * intros [post [= -> ->]]. split; [reflexivity|]. exists post. reflexivity.
Qed.

Lemma strstr_spec haystack needle :
  strstr haystack needle = true <-> infix needle haystack.
Proof.
  unfold infix. induction haystack as [|b rest IH]; simpl.
  - rewrite orb_false_r, is_prefix_spec. split.
    + intros [post ->]. exists [], post. reflexivity.
    + intros (pre & post & H). destruct pre; [|discriminate H].
      exists post. exact H.
  - rewrite orb_true_iff, is_prefix_spec, IH. split.
    + intros [[post ->] | (pre & post & ->)].
      * exists [], post. reflexivity.
      * exists (b :: pre), post. reflexivity.
    + intros (pre & post & H). destruct pre as [|c pre].
      * left. exists post. exact H.
      * right. injection H as -> ->. exists pre, post. reflexivity.
Qed.

Lemma c_str_no_nul l : ~ In x00 l -> c_str l = l.
Proof.
  induction l as [|b l IH]; simpl; [reflexivity|]. intros H.
  rewrite bool_decide_false by (intros ->; apply H; left; reflexivity).
  rewrite IH; [reflexivity|]. intros Hin. apply H. right. exact Hin.
Qed.

(** An occurrence of a needle that holds no [sep] lies on one side of a
    [sep]. *)
Lemma infix_separator needle sep l1 l2 :
  needle <> [] -> ~ In sep needle ->
  infix needle (l1 ++ sep :: l2) <->
  infix needle (l1 ++ [sep]) \/ infix needle l2.
Proof.
  intros Hne Hsep. unfold infix. split.
  - intros (pre & post & H).
    apply app_eq_app in H as [k [[H1 H2] | [H1 H2]]].
    + apply app_eq_app in H2 as [k' [[H3 H4] | [H3 H4]]].
      * destruct k' as [|c k'].
        -- left. rewrite app_nil_r in H3. subst l1 needle.
           exists pre, [sep]. rewrite <- !app_assoc. reflexivity.
        -- exfalso. injection H4 as <- _. apply Hsep. rewrite H3.
           apply in_or_app. right. left. reflexivity.
      * left. subst l1 k. exists pre, (k' ++ [sep]).
        rewrite <- !app_assoc. reflexivity.
    + destruct k as [|c k].
      * exfalso. destruct needle as [|c needle]; [congruence|].
        injection H2 as <- _. apply Hsep. left. reflexivity.
      * right. injection H2 as _ ->. exists k, post. reflexivity.
  - intros [(pre & post & H) | (pre & post & ->)].
    + exists pre, (post ++ l2).
      change (sep :: l2) with ([sep] ++ l2). rewrite app_assoc, H, <- !app_assoc.
      reflexivity.
    + exists (l1 ++ sep :: pre), post. rewrite <- app_assoc. reflexivity.
Qed.

(** Scanning line by line finds what scanning the whole text finds, for a
    needle that holds no newline. *)
Lemma getlines_scan needle l :
  needle <> [] -> ~ In x0a needle ->
  forall cur,
  ~ In x0a cur -> ~ In x00 (rev cur ++ l) ->
  existsb (fun line => strstr (c_str line) needle) (getlines l cur) = true <->
  infix needle (rev cur ++ l).
Proof.
  intros Hne Hnl. induction l as [|b rest IH]; intros cur Hcur Hnul.
  - rewrite app_nil_r in *. destruct cur as [|c cur]; cbn [getlines existsb].
    + split; [discriminate|]. intros (pre & post & H).
      destruct pre; [|discriminate H]. destruct needle; [congruence|discriminate H].
    + rewrite orb_false_r, c_str_no_nul by exact Hnul. apply strstr_spec.
  - cbn [getlines]. destruct (bool_decide (b = x0a)) eqn:Hb.
    + apply bool_decide_eq_true in Hb. subst b. cbn [existsb].
      rewrite orb_true_iff, (IH []); cycle 1.
      * intros [].
      * intros Hin. apply Hnul. apply in_or_app. right. right. exact Hin.
      * rewrite c_str_no_nul.
        -- rewrite strstr_spec. cbn [rev app]. symmetry.
           apply infix_separator; assumption.
        -- cbn [rev]. intros Hin. apply Hnul.
           apply in_app_or in Hin as [Hin | [Hin | []]].
           ++ apply in_or_app. left. exact Hin.
           ++ discriminate Hin.
    + apply bool_decide_eq_false in Hb.
      rewrite (IH (b :: cur)).
      * cbn [rev]. rewrite <- app_assoc. reflexivity.
      * intros [Hin | Hin]; [congruence|contradiction].
      * cbn [rev]. rewrite <- app_assoc. exact Hnul.
Qed.

Lemma fopen_r_ok path st f :
  lookup_file (st_fs st) path = Some f -> f_readable f = true ->
  fopen_r path st = (Some (Fd path (Some f) 0), logged (EvFopenR path true) st).
Proof.
  intros Hf Hr. unfold fopen_r, bind, get_fs. cbn [fst snd]. rewrite Hf, Hr.
  reflexivity.
Qed.

(** X13: a /proc/mounts that cannot be opened counts as "no /cache", with
    one error logged.  For one that can, and holds no NUL byte in what can
    be read of it, the line-by-line scan answers [true] exactly when
    " /cache " occurs in that text. *)
Theorem cache_is_mounted_scan st :
  (readable (st_fs st) mounts_file = false ->
   eval cache_is_mounted st = false /\
   st_trace (exec cache_is_mounted st) =
     EvLog ("failed to open " +:+ mounts_file) :: EvFopenR mounts_file false
       :: st_trace st) /\
  (readable (st_fs st) mounts_file = true ->
   ~ In x00 (stored_content (st_fs st) mounts_file) ->
   (eval cache_is_mounted st = true <->
    infix (String.list_byte_of_string " /cache ")
          (stored_content (st_fs st) mounts_file))).
Proof.
  split.
  - intros Hr. unfold eval, exec, cache_is_mounted.
    unfold bind at 1 3. rewrite (fopen_r_fail _ _ Hr). split; reflexivity.
  - intros Hr Hnul.
    destruct (readable_lookup _ _ Hr) as (f & Hf & Hrf).
    rewrite (stored_content_readable _ _ _ Hf Hrf) in *.
    unfold eval, cache_is_mounted. unfold bind at 1.
    rewrite (fopen_r_ok _ _ _ Hf Hrf). cbn [ret fst].
    rewrite (fread_bytes_some _ f) by reflexivity.
    unfold fd_left. cbn [fd_file fd_off fst].
    rewrite Nat.sub_0_r, Nat.min_id, drop_0.
    apply (getlines_scan _ _) with (cur := []).
    + discriminate.
    + cbn. intuition discriminate.
    + intros [].
    + exact Hnul.
Qed.

(** * Concrete runs *)

(** C2, on a record of two bytes and no stored log: [logsave] writes the
    record and returns 1, the [true] of [WriteStringToFile], where the
    number of bytes written is 2; on a destination that cannot be written it
    returns 0, the [false], which is not negative. *)
Theorem logsave_returns_write_flag :
  let buf := String.list_byte_of_string "ab" in
  let new := String.list_byte_of_string "new" in
  length buf = 2 /\
  differs (LogRecord "recovery/last_log" buf) st_fresh = true /\
  eval (logsave sample_rotation "recovery/last_log" buf) st_fresh = 1%Z /\
  content (st_fs (exec (logsave sample_rotation "recovery/last_log" buf) st_fresh))
          LAST_LOG_FILE = Some buf /\
  differs (LogRecord "recovery/last_install" new) st_readonly = true /\
  eval (logsave sample_rotation "recovery/last_install" new) st_readonly = 0%Z.
Proof. vm_compute. repeat split; reflexivity. Qed.

(** C4, on a last_kmsg that holds the same byte as the alternate console,
    with no primary console: the reconciler rotates. *)
Theorem rotate_last_kmsg_rotates_equal_files :
  let st' := exec (rotate_last_kmsg sample_rotation) st_reconciled in
  rotated st_reconciled = false /\
  readable (st_fs st_reconciled) LAST_CONSOLE_FILE = false /\
  readable (st_fs st_reconciled) ALT_LAST_CONSOLE_FILE = true /\
  content (st_fs st_reconciled) LAST_KMSG_FILE =
    content (st_fs st_reconciled) ALT_LAST_CONSOLE_FILE /\
  rotated st' = true /\
  rotations st' = 1.
Proof. vm_compute. repeat split; reflexivity. Qed.

(** C10, on a readable file of one byte without faults: compared with
    itself, the verdict is [false]. *)
Theorem compare_file_self_one_byte :
  lookup_file (st_fs st_one_byte) "/a" = Some (File ["a"%byte] true true None) /\
  eval (compare_file "/a" "/a") st_one_byte = false.
Proof. vm_compute. split; reflexivity. Qed.

(** ** Instances *)

Lemma one_rotation_per_run_witness :
  rotate_logs_done st_pmsg = false /\
  1 <= count_differing sample_rotation sample_records
         (exec (main_gate sample_install_in_cache ["recovery-persist"]) st_pmsg) /\
  rotations (exec (main sample_rotation sample_install sample_install_in_cache
                     ["recovery-persist"] sample_records) st_pmsg) = 1.
Proof.
  assert (rotate_logs_done st_pmsg = false) as H1 by reflexivity.
  assert (main_gate sample_install_in_cache ["recovery-persist"] st_pmsg =
          (Some false, exec (main_gate sample_install_in_cache ["recovery-persist"]) st_pmsg))
    as H2 by (vm_compute; reflexivity).
  assert (1 <= count_differing sample_rotation sample_records
                 (exec (main_gate sample_install_in_cache ["recovery-persist"]) st_pmsg))
    as H3 by (vm_compute; lia).
  split; [exact H1|]. split; [exact H3|].
  exact (proj1 (proj2 (one_rotation_per_run sample_rotation sample_install
                         sample_install_in_cache ["recovery-persist"] sample_records
                         st_pmsg false _ H1 H2 H3))).
Defined.

Lemma logsave_same_content_witness :
  eval (logsave sample_rotation "recovery/last_log" (String.list_byte_of_string "old"))
       st_logged = 3%Z /\
  st_fs (exec (logsave sample_rotation "recovery/last_log"
                 (String.list_byte_of_string "old")) st_logged) = st_fs st_logged.
Proof.
  destruct (logsave_same_content sample_rotation "recovery/last_log"
              (String.list_byte_of_string "old") st_logged)
    as (_ & Hret & Hfs & _).
  - vm_compute. reflexivity.
  - vm_compute. reflexivity.
  - split; [exact Hret|exact Hfs].
Defined.

Lemma seed_last_kmsg_copies_witness :
  content (st_fs (exec seed_last_kmsg st_rotated)) LAST_KMSG_FILE =
  Some (String.list_byte_of_string "primary").
Proof.
  destruct (seed_last_kmsg_copies st_rotated) as (_ & _ & H & _).
  rewrite H.
  - vm_compute. reflexivity.
  - reflexivity.
  - vm_compute. reflexivity.
  - vm_compute. discriminate.
Defined.

Lemma compare_file_contract_witness :
  eval (compare_file "/k" "/c") st_sizes = false /\
  st_trace (exec (compare_file "/k" "/c") st_sizes) =
    [EvStat "/c"; EvStat "/k"; EvAccess "/c"; EvAccess "/k"].
Proof.
  destruct (compare_file_contract "/k" "/c" st_sizes) as (_ & H & _).
  apply H.
  - vm_compute. reflexivity.
  - vm_compute. reflexivity.
  - vm_compute. discriminate.
Defined.

Lemma copy_file_truncates_first_witness :
  content (st_fs st_logged) LAST_LOG_FILE = Some (String.list_byte_of_string "old") /\
  readable (st_fs st_logged) LAST_CONSOLE_FILE = false /\
  content (st_fs (exec (copy_file LAST_CONSOLE_FILE LAST_LOG_FILE) st_logged)) LAST_LOG_FILE
  = Some [].
Proof.
  split; [vm_compute; reflexivity|]. split; [vm_compute; reflexivity|].
  refine (proj1 (copy_file_truncates_first LAST_CONSOLE_FILE LAST_LOG_FILE st_logged
                   (set_file (st_fs st_logged) LAST_LOG_FILE (File [] true true None)) _ _)).
  - vm_compute. reflexivity.
  - vm_compute. reflexivity.
Defined.

Lemma rotate_last_kmsg_contract_witness :
  rotated (exec (rotate_last_kmsg sample_rotation) st_reconciled) = true /\
  rotate_calls (exec (rotate_last_kmsg sample_rotation) st_reconciled) = 1.
Proof.
  destruct (rotate_last_kmsg_contract sample_rotation st_reconciled) as (_ & _ & H).
  destruct H as (Hr & Hc & _).
  - reflexivity.
  - vm_compute. reflexivity.
  - split; [rewrite Hr|rewrite Hc]; vm_compute; reflexivity.
Defined.

Lemma logsave_differing_record_witness :
  rotated (exec (logsave sample_rotation "recovery/last_log"
                   (String.list_byte_of_string "new")) st_logged) = true /\
  content (st_fs (exec (logsave sample_rotation "recovery/last_log"
                          (String.list_byte_of_string "new")) st_logged))
          LAST_LOG_FILE = Some (String.list_byte_of_string "new").
Proof.
  destruct (logsave_differing_record sample_rotation "recovery/last_log"
              (String.list_byte_of_string "new") st_logged)
    as (Hr & _ & Hw & _).
  - vm_compute. discriminate.
  - split; [exact Hr|]. apply Hw. vm_compute. discriminate.
Defined.

Lemma logsave_result_range_witness :
  (0 <= eval (logsave sample_rotation "recovery/last_install"
                (String.list_byte_of_string "new")) st_readonly)%Z.
Proof.
  apply (logsave_result_range sample_rotation "recovery/last_install"
           (String.list_byte_of_string "new") st_readonly).
  vm_compute. reflexivity.
Defined.

Lemma logsave_redelivery_witness :
  eval (logsave sample_rotation "recovery/last_log" (String.list_byte_of_string "ab"))
       (exec (logsave sample_rotation "recovery/last_log"
                (String.list_byte_of_string "ab")) st_fresh) = 2%Z.
Proof.
  refine (proj1 (logsave_redelivery sample_rotation "recovery/last_log"
                   (String.list_byte_of_string "ab") st_fresh
                   (set_file (st_fs st_fresh) LAST_LOG_FILE (File [] true true None))
                   _ _ _ _)).
  - vm_compute. discriminate.
  - vm_compute. reflexivity.
  - vm_compute. reflexivity.
  - vm_compute. reflexivity.
Defined.

Lemma pmsg_file_read_all_matching_witness :
  st_fs (exec (pmsg_file_read
                 [LogRecord "recovery/last_log" (String.list_byte_of_string "old")]
                 (logsave sample_rotation)) st_logged) = st_fs st_logged.
Proof.
  refine (proj1 (pmsg_file_read_all_matching sample_rotation
                   [LogRecord "recovery/last_log" (String.list_byte_of_string "old")]
                   st_logged _)).
  vm_compute. reflexivity.
Defined.

Lemma copy_file_keeps_others_witness :
  lookup_file (st_fs (exec (copy_file "/src" "/dst") st_faulty)) "/other" =
  Some (regular "o").
Proof.
  rewrite (copy_file_keeps_others "/src" "/dst" st_faulty "/other").
  - vm_compute. reflexivity.
  - discriminate.
Defined.

Lemma copy_file_unopenable_destination_witness :
  st_fs (exec (copy_file LAST_CONSOLE_FILE sample_install) st_readonly) =
  st_fs st_readonly.
Proof.
  refine (proj1 (copy_file_unopenable_destination LAST_CONSOLE_FILE sample_install
                   st_readonly _)).
  vm_compute. reflexivity.
Defined.


Lemma main_early_return_witness :
  rotate_calls (exec (main sample_rotation sample_install sample_install_in_cache
                        ["recovery-persist"] sample_records) st_cache) = 0.
Proof.
  refine (proj2 (proj2 (main_early_return sample_rotation sample_install
                          sample_install_in_cache ["recovery-persist"] sample_records
                          st_cache _))).
  vm_compute. reflexivity.
Defined.

Lemma main_gate_decision_witness :
  eval (main_gate sample_install_in_cache ["recovery-persist"; "--force-persist"]) st_cache
  = Some true.
Proof.
  rewrite (main_gate_decision sample_install_in_cache
             ["recovery-persist"; "--force-persist"] st_cache).
  - vm_compute. reflexivity.
  - discriminate.
Defined.

Lemma cache_is_mounted_scan_witness :
  eval cache_is_mounted st_cache = true.
Proof.
  destruct (cache_is_mounted_scan st_cache) as [_ H].
  apply H.
  - vm_compute. reflexivity.
  - vm_compute. intuition discriminate.
  - exists (String.list_byte_of_string "/dev/block/by-name/cache"),
           (String.list_byte_of_string "ext4 rw 0 0").
    vm_compute. reflexivity.
Defined.
